(** * QCFractal storage models ([qcfractal/storage_sockets/sql_models.py])

    A shallow embedding of the SQLAlchemy declarative models of QCFractal's
    SQL storage socket and of the two methods of the declarative [Base]
    class ([to_dict] and [update_many_to_many]).

    The source file is declarative: it states tables, columns, constraints,
    defaults, foreign keys and relationship cascades.  Module [sql] gives
    the meaning of those declarations (what an INSERT, UPDATE or DELETE does
    to a database that carries them); the tables themselves are transcribed
    in module [models]. *)

From stdpp Require Import gmap strings list fin_maps.
From Stdlib Require Import ZArith.

Local Open Scope string_scope.
Local Open Scope Z_scope.
Local Open Scope list_scope.

(** ** Python strings *)

(** [str.endswith(suffix)]: [suffix] is no longer than [s] and the last
    [len(suffix)] characters of [s] are [suffix]. *)
Definition endswith (s suffix : string) : bool :=
  (String.length suffix <=? String.length s)%nat &&
  String.eqb
    (String.substring (String.length s - String.length suffix)
                      (String.length suffix) s)
    suffix.

(** [s.lower()] is only needed to compare the [ondelete] keyword, which the
    source spells both ["CASCADE"] and ["cascade"]. *)
Definition is_cascade (ondelete : option string) : bool :=
  match ondelete with
  | Some s => String.eqb s "CASCADE" || String.eqb s "cascade"
  | None => false
  end.

(** ** Results of fallible operations *)

Inductive Result (E A : Type) : Type :=
| Ok (a : A)
| Raise (e : E).
Arguments Ok {E A} a.
Arguments Raise {E A} e.

#[global] Instance Result_ret {E} : MRet (Result E) := λ A a, Ok a.
#[global] Instance Result_bind {E} : MBind (Result E) :=
  λ A B f m, match m with Ok a => f a | Raise e => Raise e end.
#[global] Instance Result_fmap {E} : FMap (Result E) :=
  λ A B f m, match m with Ok a => Ok (f a) | Raise e => Raise e end.

(** ** Meaning of the declarations *)

Module sql.

(** Column values.  [Time] is a [datetime] counted on an integer clock;
    [Json] stands for an opaque JSON document; enumeration members are
    stored by name ([Str]). *)
Inductive value : Type :=
| NULL
| Int (z : Z)
| Str (s : string)
| Bool (b : bool)
| Time (t : Z)
| Json (j : string).

#[global] Instance value_eq_dec : EqDecision value.
Proof. solve_decision. Defined.

Inductive ColumnType : Type :=
| Integer | String_ (length : option nat) | Text | DateTime | Boolean
| JSON | Float | Binary | Enum (enum_class : string).

(** [default=] of a column: absent, a scalar, or the callable
    [datetime.datetime.utcnow]. *)
Inductive ColumnDefault : Type :=
| NoDefault
| Scalar (v : value)
| utcnow.

Record ForeignKey : Type := {
  fk_table : string;
  fk_column : string;
  fk_ondelete : option string
}.

Record Column : Type := {
  c_name : string;
  c_type : ColumnType;
  c_foreign_key : option ForeignKey;
  c_primary_key : bool;
  c_nullable : bool;
  c_unique : bool;
  c_default : ColumnDefault
}.

Record Table : Type := {
  tablename : string;
  columns : list Column
}.

(** [Column(name, type)] with SQLAlchemy's defaults for the keyword
    arguments, and the keyword arguments as modifiers. *)
Definition column (name : string) (type_ : ColumnType) : Column :=
  {| c_name := name; c_type := type_; c_foreign_key := None;
     c_primary_key := false; c_nullable := true; c_unique := false;
     c_default := NoDefault |}.

Definition references (target : string) (ondelete : option string) (c : Column)
    : Column :=
  let fk := match String.index 0 "." target with
            | Some n =>
                {| fk_table := String.substring 0 n target;
                   fk_column := String.substring (S n) (String.length target - S n) target;
                   fk_ondelete := ondelete |}
            | None =>
                {| fk_table := target; fk_column := "id"; fk_ondelete := ondelete |}
            end in
  {| c_name := c_name c; c_type := c_type c; c_foreign_key := Some fk;
     c_primary_key := c_primary_key c; c_nullable := c_nullable c;
     c_unique := c_unique c; c_default := c_default c |}.

(** [primary_key=True] (a primary-key column is not nullable). *)
Definition pk (c : Column) : Column :=
  {| c_name := c_name c; c_type := c_type c; c_foreign_key := c_foreign_key c;
     c_primary_key := true; c_nullable := false;
     c_unique := c_unique c; c_default := c_default c |}.

(** [nullable=False]. *)
Definition not_null (c : Column) : Column :=
  {| c_name := c_name c; c_type := c_type c; c_foreign_key := c_foreign_key c;
     c_primary_key := c_primary_key c; c_nullable := false;
     c_unique := c_unique c; c_default := c_default c |}.

(** [unique=True]. *)
Definition uniq (c : Column) : Column :=
  {| c_name := c_name c; c_type := c_type c; c_foreign_key := c_foreign_key c;
     c_primary_key := c_primary_key c; c_nullable := c_nullable c;
     c_unique := true; c_default := c_default c |}.

(** [default=d]. *)
Definition with_default (d : ColumnDefault) (c : Column) : Column :=
  {| c_name := c_name c; c_type := c_type c; c_foreign_key := c_foreign_key c;
     c_primary_key := c_primary_key c; c_nullable := c_nullable c;
     c_unique := c_unique c; c_default := d |}.

(** A row maps column names to values; a column that is missing reads as
    [NULL]. *)
Abbreviation Row := (gmap string value).

Definition get (r : Row) (col : string) : value := default NULL (r !! col).

(** The database behind a session: the rows of each table, in physical
    order, and the next value of each table's primary-key sequence. *)
Record Database : Type := {
  rows : string → list Row;
  nextval : string → Z
}.

Definition empty_database : Database :=
  {| rows := λ _, []; nextval := λ _, 1 |}.

Definition set_rows (db : Database) (t : string) (rs : list Row) : Database :=
  {| rows := λ t', if String.eqb t' t then rs else rows db t';
     nextval := nextval db |}.

Definition bump (db : Database) (t : string) : Database :=
  {| rows := rows db;
     nextval := λ t', if String.eqb t' t then nextval db t' + 1 else nextval db t' |}.

Inductive Violation : Type :=
| NotNullViolation | UniqueViolation | ForeignKeyViolation.

Inductive Exception : Type :=
| IntegrityError (v : Violation) (table column_ : string)
| KeyError (key : string)
| ArgumentError
| RecursionError.

(** *** INSERT *)

(** An integer primary key that is not itself a foreign key is filled from
    the table's sequence when the statement gives no value for it. *)
Definition autoincrement (c : Column) : bool :=
  c_primary_key c
  && match c_type c with Integer => true | _ => false end
  && match c_foreign_key c with None => true | Some _ => false end.

Definition stored_value (now next : Z) (c : Column) (r : Row) : value :=
  match r !! c_name c with
  | Some v => v
  | None =>
      if autoincrement c then Int next
      else match c_default c with
           | NoDefault => NULL
           | Scalar v => v
           | utcnow => Time now
           end
  end.

Definition fill (now next : Z) (t : Table) (r : Row) : Row :=
  list_to_map (map (λ c, (c_name c, stored_value now next c r)) (columns t)).

Definition uses_sequence (t : Table) (r : Row) : bool :=
  existsb (λ c, autoincrement c && bool_decide (r !! c_name c = None)) (columns t).

Definition not_null_ok (r : Row) (c : Column) : bool :=
  c_nullable c || bool_decide (get r (c_name c) ≠ NULL).

(** [UNIQUE] (and primary key): no stored row carries the same non-null
    value in the column. *)
Definition unique_ok (existing : list Row) (r : Row) (c : Column) : bool :=
  negb (c_unique c || c_primary_key c)
  || bool_decide (get r (c_name c) = NULL)
  || forallb (λ r', bool_decide (get r' (c_name c) ≠ get r (c_name c))) existing.

(** [FOREIGN KEY]: a non-null value names a stored row of the target. *)
Definition foreign_key_ok (db : Database) (r : Row) (c : Column) : bool :=
  match c_foreign_key c with
  | None => true
  | Some fk =>
      bool_decide (get r (c_name c) = NULL)
      || existsb (λ r', bool_decide (get r' (fk_column fk) = get r (c_name c)))
                 (rows db (fk_table fk))
  end.

Definition check (v : Violation) (t : Table) (ok : Column → bool)
    : Result Exception unit :=
  match List.find (λ c, negb (ok c)) (columns t) with
  | Some c => Raise (IntegrityError v (tablename t) (c_name c))
  | None => Ok ()
  end.

Definition insert (now : Z) (t : Table) (r : Row) (db : Database)
    : Result Exception (Row * Database) :=
  let r' := fill now (nextval db (tablename t)) t r in
  _ ← check NotNullViolation t (not_null_ok r');
  _ ← check UniqueViolation t (unique_ok (rows db (tablename t)) r');
  _ ← check ForeignKeyViolation t (foreign_key_ok db r');
  let db' := set_rows db (tablename t) (rows db (tablename t) ++ [r']) in
  Ok (r', if uses_sequence t r then bump db' (tablename t) else db').

(** A multi-row [INSERT ... VALUES] is one statement: either every row is
    stored or none is. *)
Fixpoint insert_many (now : Z) (t : Table) (rs : list Row) (db : Database)
    : Result Exception Database :=
  match rs with
  | [] => Ok db
  | r :: rs => '(_, db') ← insert now t r db; insert_many now t rs db'
  end.

(** *** UPDATE *)

Definition update_where (t : Table) (sel : Row → bool) (f : Row → Row)
    (db : Database) : Database :=
  set_rows db (tablename t)
    (map (λ r, if sel r then f r else r) (rows db (tablename t))).

(** *** DELETE *)

(** The foreign keys of the schema that point at table [target]. *)
Definition referencing (metadata : list Table) (target : string)
    : list (Table * Column * ForeignKey) :=
  flat_map (λ t,
    flat_map (λ c,
      match c_foreign_key c with
      | Some fk => if String.eqb (fk_table fk) target then [(t, c, fk)] else []
      | None => []
      end) (columns t)) metadata.

Definition points_at (keys : list value) (c : Column) (r : Row) : bool :=
  bool_decide (get r (c_name c) ≠ NULL) && bool_decide (get r (c_name c) ∈ keys).

(** [DELETE FROM t WHERE sel]: the selected rows go; rows of other tables
    that reference them go too where the foreign key says
    [ondelete="CASCADE"], and otherwise (no action) make the statement fail.
    [fuel] bounds the depth of the cascade. *)
Fixpoint delete_rows (fuel : nat) (metadata : list Table) (t : Table)
    (sel : Row → bool) (db : Database) : Result Exception Database :=
  match fuel with
  | O => Raise RecursionError
  | S fuel =>
      let victims := List.filter sel (rows db (tablename t)) in
      let db1 := set_rows db (tablename t)
                   (List.filter (λ r, negb (sel r)) (rows db (tablename t))) in
      foldl (λ acc ref,
               let '(t', c', fk) := ref in
               db_acc ← acc;
               let keys := map (λ r, get r (fk_column fk)) victims in
               if is_cascade (fk_ondelete fk)
               then delete_rows fuel metadata t' (points_at keys c') db_acc
               else if existsb (points_at keys c') (rows db_acc (tablename t'))
                    then Raise (IntegrityError ForeignKeyViolation
                                  (tablename t') (c_name c'))
                    else Ok db_acc)
            (Ok db1) (referencing metadata (tablename t))
  end.

Definition delete_where (metadata : list Table) (t : Table) (sel : Row → bool)
    (db : Database) : Result Exception Database :=
  delete_rows (S (length metadata)) metadata t sel db.

(** How often a row occurs in a table (the association tables declare no
    primary key, so a link can be stored more than once). *)
Definition occurrences (r : Row) (l : list Row) : nat :=
  length (List.filter (λ r', bool_decide (r' = r)) l).

(** *** Statements run through a session *)

(** The WHERE clauses the source builds: [col == v], [col.in_(vs)] and
    [and_(a, b)].  A comparison with [NULL] selects nothing. *)
Inductive Clause : Type :=
| Eq (col : string) (v : value)
| In_ (col : string) (vs : list value)
| And (a b : Clause).

Fixpoint holds (w : Clause) (r : Row) : bool :=
  match w with
  | Eq col v => bool_decide (get r col ≠ NULL) && bool_decide (get r col = v)
  | In_ col vs => bool_decide (get r col ≠ NULL) && bool_decide (get r col ∈ vs)
  | And a b => holds a r && holds b r
  end.

Inductive Statement : Type :=
| Delete (table : Table) (whereclause : Clause)
| Insert (table : Table) (values : list Row).

(** A session: the database it is bound to (with the uncommitted changes of
    the transaction in progress) and the statements it has executed. *)
Record Session : Type := {
  bind : Database;
  executed : list Statement
}.

(** The schema the session's database was created from ([Base.metadata])
    and the clock read by [utcnow] are fixed during one call. *)
Definition execute (metadata : list Table) (now : Z) (stmt : Statement)
    (session : Session) : Result Exception Session :=
  db ← match stmt with
       | Delete table w => delete_where metadata table (holds w) (bind session)
       | Insert table values => insert_many now table values (bind session)
       end;
  Ok {| bind := db; executed := executed session ++ [stmt] |}.

(** *** Relationships of the ORM *)

Record Relationship : Type := {
  r_name : string;
  r_target : string;              (* table of the related class *)
  r_foreign_key : option string;  (* local column, for a many-to-one *)
  r_secondary : option string;    (* association table, for a many-to-many *)
  r_lazy : string;
  r_cascade : string;
  r_single_parent : bool
}.

(** ["all"] stands for save-update, merge, refresh-expire, expunge and
    delete. *)
Definition cascades_delete (r : Relationship) : bool :=
  String.eqb (r_cascade r) "all, delete-orphan"
  || String.eqb (r_cascade r) "all"
  || String.eqb (r_cascade r) "delete".

End sql.

(** ** The declarative base class *)

Module Base.
Import sql.

Section to_dict.

(** The values held in an instance's [__dict__] are arbitrary Python
    objects: the method never inspects them. *)
Context {V : Type}.

(** [db_related_fields = ['result_type']] (class attribute of [Base]). *)
Definition db_related_fields : list string := ["result_type"].

(** [dict.pop(key, None)] used as a statement: the key is removed when
    present, and nothing happens (no [KeyError]) when it is absent. *)
Definition pop (key : string) (d : gmap string V) : gmap string V :=
  delete key d.

(** Iteration over the keys of a dict. *)
Definition keys (d : gmap string V) : list string := (map_to_list d).*1.

(** [if exclude:] is false for [None] and for an empty sequence. *)
Definition truthy {A} (o : option (list A)) : bool :=
  match o with
  | Some (_ :: _) => true
  | _ => false
  end.

Definition to_dict (self__dict__ : gmap string V)
    (with_id : bool) (exclude : option (list string)) (no_child_obj : bool)
    : gmap string V :=
  let dict_obj := self__dict__ in
  let tobe_deleted_keys := ["_sa_instance_state"] in
  let tobe_deleted_keys := tobe_deleted_keys ++ db_related_fields in
  let tobe_deleted_keys :=
    if negb with_id then tobe_deleted_keys ++ ["id"]
    else tobe_deleted_keys in
  let tobe_deleted_keys :=
    if truthy exclude then tobe_deleted_keys ++ default [] exclude
    else tobe_deleted_keys in
  let tobe_deleted_keys :=
    if no_child_obj then
      let arr := List.filter (λ key, endswith key "_obj") (keys self__dict__) in
      tobe_deleted_keys ++ arr
    else tobe_deleted_keys in
  foldl (λ d key, pop key d) dict_obj tobe_deleted_keys.

End to_dict.

(** [{x for x in l} if l else set()]: [None] and the empty list both give
    the empty set. *)
Definition as_set (l : option (list Z)) : gset Z :=
  if truthy l then list_to_set (default [] l) else ∅.

(** [table.c[name]]: the column called [name], or [KeyError]. *)
Definition c (table : Table) (name : string) : Result Exception Column :=
  match List.find (λ col, String.eqb (c_name col) name) (columns table) with
  | Some col => Ok col
  | None => Raise (KeyError name)
  end.

(** [table.insert().values([tuple, ...])]: a tuple gives the values of the
    table's columns in the order the table declares them. *)
Definition values (table : Table) (tuple : list value)
    : Result Exception Row :=
  if bool_decide (length tuple = length (columns table))
  then Ok (list_to_map (zip (map c_name (columns table)) tuple))
  else Raise ArgumentError.

(** The row that [values] builds from the tuple [(parent_id_val, my_id)]. *)
Definition link (table : Table) (parent_id_val my_id : Z) : Row :=
  list_to_map (zip (map c_name (columns table)) [Int parent_id_val; Int my_id]).

(** The statement built under [if to_del:]. *)
Definition delete_statement (table : Table) (parent_id_name child_id_name : string)
    (parent_id_val : Z) (to_del : gset Z) : Result Exception Statement :=
  pc ← c table parent_id_name;
  cc ← c table child_id_name;
  Ok (Delete table (And (Eq (c_name pc) (Int parent_id_val))
                        (In_ (c_name cc) (map Int (elements to_del))))).

(** The statement built under [if to_add:].  The iteration order of a
    Python set is not specified; [elements] fixes one. *)
Definition insert_statement (table : Table) (parent_id_val : Z) (to_add : gset Z)
    : Result Exception Statement :=
  rs ← mapM (λ my_id, values table [Int parent_id_val; Int my_id]) (elements to_add);
  Ok (Insert table rs).

(** [update_many_to_many] returns nothing; it changes the session, and an
    exception raised by a statement leaves the session as it was when the
    statement was issued (nothing is committed or rolled back here). *)
Definition update_many_to_many (metadata : list Table) (now : Z)
    (session : Session) (table : Table) (parent_id_name child_id_name : string)
    (parent_id_val : Z) (new_list old_list : option (list Z))
    : Session * option Exception :=
  let old_set := as_set old_list in
  let new_set := as_set new_list in
  if bool_decide (old_set ≠ new_set) then
    let to_add := new_set ∖ old_set in
    let to_del := old_set ∖ new_set in
    let '(session, raised) :=
      if bool_decide (to_del ≠ ∅) then
        match stmt ← delete_statement table parent_id_name child_id_name
                        parent_id_val to_del;
              execute metadata now stmt session with
        | Ok session' => (session', None)
        | Raise e => (session, Some e)
        end
      else (session, None) in
    match raised with
    | Some e => (session, Some e)
    | None =>
        if bool_decide (to_add ≠ ∅) then
          match stmt ← insert_statement table parent_id_val to_add;
                execute metadata now stmt session with
          | Ok session' => (session', None)
          | Raise e => (session, Some e)
          end
        else (session, None)
    end
  else (session, None).

End Base.

(** ** The models *)

(** Each table is transcribed column by column, in the order of the source.
    A mapped class is given by its table and, where it declares any, by
    its relationships.  [column_property] attributes are queries and are
    given as functions of the database. *)

Module models.
Import sql.

Definition AccessLogORM : Table :=
  {| tablename := "access_log";
     columns :=
       [ pk (column "id" Integer);
         column "ip_address" (String_ None);
         with_default utcnow (column "date" DateTime);
         column "type" (String_ None) ] |}.

Definition LogsORM : Table :=
  {| tablename := "logs";
     columns :=
       [ pk (column "id" Integer);
         not_null (column "value" Text) ] |}.

Definition ErrorORM : Table :=
  {| tablename := "error";
     columns :=
       [ pk (column "id" Integer);
         not_null (column "value" Text) ] |}.

Definition CollectionORM : Table :=
  {| tablename := "collection";
     columns :=
       [ pk (column "id" Integer);
         not_null (column "collection" (String_ (Some 100%nat)));
         not_null (column "name" (String_ (Some 100%nat)));
         column "tags" JSON;
         column "tagline" (String_ None);
         column "data" JSON ] |}.

Definition MoleculeORM : Table :=
  {| tablename := "molecule";
     columns :=
       [ pk (column "id" Integer);
         column "molecular_formula" (String_ None);
         column "molecule_hash" (String_ None);
         column "schema_name" (String_ None);
         with_default (Scalar (Int 2)) (column "schema_version" Integer);
         column "symbols" JSON;
         column "geometry" JSON;
         with_default (Scalar (Str "")) (column "name" (String_ None));
         column "identifiers" JSON;
         column "comment" (String_ None);
         with_default (Scalar (Int 0)) (column "molecular_charge" Float);
         with_default (Scalar (Int 1)) (column "molecular_multiplicity" Integer);
         column "masses" JSON;
         column "real" JSON;
         column "atom_labels" JSON;
         column "atomic_numbers" JSON;
         column "mass_numbers" JSON;
         column "connectivity" JSON;
         column "fragments" JSON;
         column "fragment_charges" JSON;
         column "fragment_multiplicities" JSON;
         with_default (Scalar (Bool false)) (column "fix_com" Boolean);
         with_default (Scalar (Bool false)) (column "fix_orientation" Boolean);
         column "fix_symmetry" (String_ None);
         column "provenance" JSON;
         column "extras" JSON ] |}.

Definition KeywordsORM : Table :=
  {| tablename := "keywords";
     columns :=
       [ pk (column "id" Integer);
         not_null (column "hash_index" (String_ None));
         column "values" JSON;
         with_default (Scalar (Bool true)) (column "lowercase" Boolean);
         with_default (Scalar (Bool false)) (column "exact_floats" Boolean);
         column "comments" (String_ None) ] |}.

(** [RecordStatusEnum.incomplete] is stored by its name. *)
Definition BaseResultORM : Table :=
  {| tablename := "base_result";
     columns :=
       [ column "result_type" (String_ None);
         column "task_id" (String_ None);
         pk (column "id" Integer);
         column "hash_index" (String_ None);
         column "procedure" (String_ (Some 100%nat));
         column "program" (String_ (Some 100%nat));
         column "version" Integer;
         column "extras" JSON;
         references "logs.id" None (column "stdout" Integer);
         references "logs.id" None (column "stderr" Integer);
         references "error.id" None (column "error" Integer);
         with_default (Scalar (Str "incomplete"))
           (not_null (column "status" (Enum "RecordStatusEnum")));
         with_default utcnow (column "created_on" DateTime);
         with_default utcnow (column "modified_on" DateTime);
         column "provenance" JSON ] |}.

Definition BaseResultORM_relationships : list Relationship :=
  [ {| r_name := "stdout_obj"; r_target := "logs";
       r_foreign_key := Some "stdout"; r_secondary := None;
       r_lazy := "noload"; r_cascade := "all, delete-orphan";
       r_single_parent := true |};
    {| r_name := "stderr_obj"; r_target := "logs";
       r_foreign_key := Some "stderr"; r_secondary := None;
       r_lazy := "noload"; r_cascade := "all, delete-orphan";
       r_single_parent := true |};
    {| r_name := "error_obj"; r_target := "error";
       r_foreign_key := Some "error"; r_secondary := None;
       r_lazy := "noload"; r_cascade := "all, delete-orphan";
       r_single_parent := true |} ].

(** The unique index on (program, driver, method, basis, molecule,
    keywords) is present in the source only inside a comment ([meta]); the
    table declares no constraint beyond its columns. *)
Definition ResultORM : Table :=
  {| tablename := "result";
     columns :=
       [ pk (references "base_result.id" (Some "CASCADE") (column "id" Integer));
         not_null (column "driver" (String_ None));
         not_null (column "method" (String_ (Some 100%nat)));
         column "basis" (String_ (Some 100%nat));
         references "molecule.id" None (column "molecule" Integer);
         references "keywords.id" None (column "keywords" Integer);
         column "return_result" JSON;
         column "properties" JSON ] |}.

Definition ResultORM_relationships : list Relationship :=
  [ {| r_name := "molecule_obj"; r_target := "molecule";
       r_foreign_key := Some "molecule"; r_secondary := None;
       r_lazy := "select"; r_cascade := "save-update, merge";
       r_single_parent := false |};
    {| r_name := "keywords_obj"; r_target := "keywords";
       r_foreign_key := Some "keywords"; r_secondary := None;
       r_lazy := "select"; r_cascade := "save-update, merge";
       r_single_parent := false |} ].

(** [ProcedureMixin]: the columns every procedure table receives.  They
    are created before the columns of the class that takes them, and so
    come first in its table; a class that declares a column of the same
    name itself ([TorsionDriveProcedureORM.keywords]) keeps its own. *)
Definition ProcedureMixin : list Column :=
  [ column "keywords" JSON;
    column "qc_spec" JSON ].

Definition opt_result_association : Table :=
  {| tablename := "opt_result_association";
     columns :=
       [ references "optimization_procedure.id" (Some "CASCADE")
           (column "opt_id" Integer);
         references "result.id" (Some "CASCADE")
           (column "result_id" Integer) ] |}.

Definition OptimizationProcedureORM : Table :=
  {| tablename := "optimization_procedure";
     columns :=
       ProcedureMixin ++
       [ pk (references "base_result.id" (Some "cascade") (column "id" Integer));
         with_default (Scalar (Int 1)) (column "schema_version" Integer);
         references "molecule.id" None (column "initial_molecule" Integer);
         column "energies" JSON;
         references "molecule.id" None (column "final_molecule" Integer) ] |}.

Definition OptimizationProcedureORM_relationships : list Relationship :=
  [ {| r_name := "initial_molecule_obj"; r_target := "molecule";
       r_foreign_key := Some "initial_molecule"; r_secondary := None;
       r_lazy := "select"; r_cascade := "save-update, merge";
       r_single_parent := false |};
    {| r_name := "final_molecule_obj"; r_target := "molecule";
       r_foreign_key := Some "final_molecule"; r_secondary := None;
       r_lazy := "select"; r_cascade := "save-update, merge";
       r_single_parent := false |};
    {| r_name := "trajectory_obj"; r_target := "result";
       r_foreign_key := None; r_secondary := Some "opt_result_association";
       r_lazy := "noload"; r_cascade := "save-update, merge";
       r_single_parent := false |} ].

Definition torj_opt_association : Table :=
  {| tablename := "torj_opt_association";
     columns :=
       [ references "torsiondrive_procedure.id" (Some "CASCADE")
           (column "torj_id" Integer);
         references "optimization_procedure.id" (Some "CASCADE")
           (column "opt_id" Integer) ] |}.

Definition torj_init_mol_association : Table :=
  {| tablename := "torj_init_mol_association";
     columns :=
       [ references "torsiondrive_procedure.id" (Some "CASCADE")
           (column "torj_id" Integer);
         references "molecule.id" (Some "CASCADE")
           (column "molecule_id" Integer) ] |}.

Definition TorsionDriveProcedureORM : Table :=
  {| tablename := "torsiondrive_procedure";
     columns :=
       [ column "qc_spec" JSON;
         pk (references "base_result.id" (Some "cascade") (column "id" Integer));
         column "keywords" JSON;
         column "optimization_spec" JSON;
         column "final_energy_dict" JSON;
         column "minimum_positions" JSON ] |}.

Definition TorsionDriveProcedureORM_relationships : list Relationship :=
  [ {| r_name := "initial_molecule_obj"; r_target := "molecule";
       r_foreign_key := None; r_secondary := Some "torj_init_mol_association";
       r_lazy := "noload"; r_cascade := "save-update, merge";
       r_single_parent := false |};
    {| r_name := "optimization_history_obj"; r_target := "optimization_procedure";
       r_foreign_key := None; r_secondary := Some "torj_opt_association";
       r_lazy := "noload"; r_cascade := "save-update, merge";
       r_single_parent := false |} ].

(** [TaskStatusEnum.waiting] and [PriorityEnum.NORMAL] are stored by name. *)
Definition TaskQueueORM : Table :=
  {| tablename := "task_queue";
     columns :=
       [ pk (column "id" Integer);
         column "spec" JSON;
         with_default (Scalar NULL) (column "tag" (String_ None));
         with_default (Scalar (Str "")) (column "parser" (String_ None));
         column "program" (String_ None);
         column "procedure" (String_ None);
         with_default (Scalar (Str "waiting")) (column "status" (Enum "TaskStatusEnum"));
         with_default (Scalar (Str "NORMAL")) (column "priority" (Enum "PriorityEnum"));
         with_default (Scalar NULL) (column "manager" (String_ None));
         column "error" (String_ None);
         with_default utcnow (column "created_on" DateTime);
         with_default utcnow (column "modified_on" DateTime);
         uniq (references "base_result.id" None (column "base_result" Integer)) ] |}.

Definition ServiceQueueORM : Table :=
  {| tablename := "service_queue";
     columns :=
       [ pk (column "id" Integer);
         with_default (Scalar (Str "waiting")) (column "status" (Enum "TaskStatusEnum"));
         with_default (Scalar NULL) (column "tag" (String_ None));
         not_null (column "hash_index" (String_ None));
         references "base_result.id" None (column "procedure_id" Integer) ] |}.

Definition UserORM : Table :=
  {| tablename := "user";
     columns :=
       [ pk (column "id" Integer);
         uniq (not_null (column "username" (String_ None)));
         not_null (column "password" Binary);
         column "permissions" JSON ] |}.

Definition QueueManagerORM : Table :=
  {| tablename := "queue_manager";
     columns :=
       [ pk (column "id" Integer);
         uniq (column "name" (String_ None));
         column "cluster" (String_ None);
         column "hostname" (String_ None);
         column "uuid" (String_ None);
         column "tag" (String_ None);
         with_default (Scalar (Int 0)) (column "completed" Integer);
         with_default (Scalar (Int 0)) (column "submitted" Integer);
         with_default (Scalar (Int 0)) (column "failures" Integer);
         with_default (Scalar (Int 0)) (column "returned" Integer);
         with_default (Scalar (Str "inactive")) (column "status" (Enum "ManagerStatusEnum"));
         with_default utcnow (column "created_on" DateTime);
         with_default utcnow (column "modified_on" DateTime) ] |}.

(** The tables declared with [Table(...)]: the many-to-many associations. *)
Definition association_tables : list Table :=
  [ opt_result_association; torj_opt_association; torj_init_mol_association ].

(** [Base.metadata]: every table of the module. *)
Definition metadata : list Table :=
  [ AccessLogORM; LogsORM; ErrorORM; CollectionORM; MoleculeORM; KeywordsORM;
    BaseResultORM; ResultORM; opt_result_association; OptimizationProcedureORM;
    torj_opt_association; torj_init_mol_association; TorsionDriveProcedureORM;
    TaskQueueORM; ServiceQueueORM; UserORM; QueueManagerORM ].

End models.

(** ** What the session does with the mapped classes *)

Module orm.
Import sql models.

Definition has_id (i : Z) (r : Row) : bool := bool_decide (get r "id" = Int i).

Definition table_named (name : string) : option Table :=
  List.find (λ t, String.eqb (tablename t) name) metadata.

(** [polymorphic_on: 'result_type']: the relationships of an instance are
    those of [BaseResultORM] and those of the class its discriminator
    names. *)
Definition polymorphic_identity_of (obj : Row) : string :=
  match get obj "result_type" with
  | Str identity => identity
  | _ => ""
  end.

Definition relationships_of (obj : Row) : list Relationship :=
  BaseResultORM_relationships ++
  (if String.eqb (polymorphic_identity_of obj) "result"
   then ResultORM_relationships
   else if String.eqb (polymorphic_identity_of obj) "optimization_procedure"
   then OptimizationProcedureORM_relationships
   else if String.eqb (polymorphic_identity_of obj) "torsiondrive_procedure"
   then TorsionDriveProcedureORM_relationships
   else []).

(** [session.add(cls(...))] and flush, for a class that inherits from
    [BaseResultORM] (joined-table inheritance): the row of [base_result] is
    stored first, with the class's [polymorphic_identity] as discriminator,
    and the row of the class's own table takes its id. *)
Definition add (now : Z) (cls : Table) (polymorphic_identity : string)
    (attrs : Row) (db : Database) : Result Exception (value * Database) :=
  '(base, db) ← insert now BaseResultORM
                  (<["result_type" := Str polymorphic_identity]> attrs) db;
  '(_, db) ← insert now cls (<["id" := get base "id"]> attrs) db;
  Ok (get base "id", db).

(** [OptimizationProcedureORM.__init__] and
    [TorsionDriveProcedureORM.__init__]. *)
Definition OptimizationProcedureORM__init__ (kwargs : Row) : Row :=
  let kwargs := match kwargs !! "version" with
                | Some _ => kwargs
                | None => <["version" := Int 1]> kwargs
                end in
  kwargs ∪ {[ "procedure" := Str "optimization" ]}.

Definition TorsionDriveProcedureORM__init__ (kwargs : Row) : Row :=
  let kwargs := match kwargs !! "version" with
                | Some _ => kwargs
                | None => <["version" := Int 1]> kwargs
                end in
  kwargs ∪ {[ "procedure" := Str "torsiondrive"; "program" := Str "torsiondrive" ]}.

(** The value a relationship attribute holds on an instance that a query
    has loaded.  A relationship declared [lazy='noload'] is never loaded:
    the attribute reads as [None] (as an empty collection with
    [uselist=True]) whatever the database holds.  With another loader a
    many-to-one is read by following its foreign key.  (Every many-to-many
    relationship of the source is [lazy='noload'].) *)
Definition loaded (db : Database) (obj : Row) (rel : Relationship)
    : list (Table * Row) :=
  if String.eqb (r_lazy rel) "noload" then []
  else
    match r_foreign_key rel, table_named (r_target rel) with
    | Some col, Some target =>
        map (pair target)
            (List.filter (holds (Eq "id" (get obj col))) (rows db (tablename target)))
    | _, _ => []
    end.

(** [session.delete(obj)] and flush, for a persistent instance [obj] of
    [BaseResultORM] or of one of its subclasses that a query has loaded
    ([obj] is its row of [base_result]).  The delete cascade of a
    relationship marks for deletion the objects the attribute holds; the
    row of [obj] is deleted, the database applying the [ondelete] actions of
    the foreign keys that point at it; then the rows of the objects the
    cascade has reached are deleted. *)
Definition delete (obj : Row) (db : Database) : Result Exception Database :=
  let cascaded :=
    flat_map (λ rel, if cascades_delete rel then loaded db obj rel else [])
             (relationships_of obj) in
  db ← delete_where metadata BaseResultORM
         (λ r, bool_decide (get r "id" = get obj "id")) db;
  foldl (λ acc related,
           db ← acc;
           delete_where metadata related.1
             (λ r, bool_decide (get r "id" = get related.2 "id")) db)
        (Ok db) cascaded.

(** [func.array_agg(column)] over the selected rows, without ORDER BY: NULL
    ([None]) when no row is selected, and otherwise an array of the values
    in an order that the query does not determine. *)
Definition array_agg (selected : list value) (result : option (list value))
    : Prop :=
  match result with
  | None => selected = []
  | Some array => selected ≠ [] ∧ array ≡ₚ selected
  end.

#[global] Instance array_agg_dec selected result :
  Decision (array_agg selected result).
Proof. destruct result; simpl; apply _. Defined.

(** [OptimizationProcedureORM.trajectory]:
    [select([func.array_agg(opt_result_association.c.result_id)])
       .where(opt_result_association.c.opt_id == id)]. *)
Definition trajectory (db : Database) (id : Z) : option (list value) → Prop :=
  array_agg
    (map (λ r, get r "result_id")
         (List.filter (holds (Eq "opt_id" (Int id)))
                      (rows db (tablename opt_result_association)))).

(** [TorsionDriveProcedureORM.optimization_history]. *)
Definition optimization_history (db : Database) (id : Z)
    : option (list value) → Prop :=
  array_agg
    (map (λ r, get r "opt_id")
         (List.filter (holds (Eq "torj_id" (Int id)))
                      (rows db (tablename torj_opt_association)))).

(** [TorsionDriveProcedureORM.initial_molecule]. *)
Definition initial_molecule (db : Database) (id : Z)
    : option (list value) → Prop :=
  array_agg
    (map (λ r, get r "molecule_id")
         (List.filter (holds (Eq "torj_id" (Int id)))
                      (rows db (tablename torj_init_mol_association)))).

(** The association tables behind the two ordered child sequences. *)
Definition ordered_associations : list Table :=
  [ opt_result_association; torj_opt_association ].

(** A column of an association table that is not one of its foreign keys
    (where a sequence position would be kept). *)
Definition carries_position_column (t : Table) : Prop :=
  ∃ c, c ∈ columns t ∧ c_foreign_key c = None.

(** The deduplication key of a single result, as the comment in
    [ResultORM] lists it.  [program] is a column of [base_result], the
    other five are columns of [result]. *)
Definition dedup_key (base res : Row) : list value :=
  [ get base "program"; get res "driver"; get res "method"; get res "basis";
    get res "molecule"; get res "keywords" ].

(** [session.add(TaskQueueORM(base_result=..., priority=..., tag=...,
    spec=...))] and flush: the INSERT behind the store's [enqueue].  The
    [IntegrityError] of the unique constraint on [base_result] is the
    store's [Conflict]. *)
Definition enqueue (now : Z) (base_result_id : Z) (priority tag spec : value)
    (db : Database) : Result Exception (value * Database) :=
  '(task, db) ← insert now TaskQueueORM
                  {[ "base_result" := Int base_result_id;
                     "priority" := priority; "tag" := tag; "spec" := spec ]} db;
  Ok (get task "id", db).

(** A task is live while its status is [waiting] or [running]; [error] and
    [complete] are the statuses of a task that has resolved. *)
Definition live (task : Row) : bool :=
  bool_decide (get task "status" = Str "waiting")
  || bool_decide (get task "status" = Str "running").

End orm.

(** ** Operations of the store *)

(** The source declares the tables; the operations that act on them
    (status transitions, service submission) are written elsewhere in the
    repository.  They are given here as the specification words them, over
    the tables of the source. *)

Module store.
Import sql models orm.

(** Modelled from the spec: the error kinds of its section 7 (the source
    file raises none of its own).  [Unexpected] carries a database error the
    specification gives no name to. *)
Inductive Error : Type :=
| NotFound
| Conflict
| InvalidTransition
| IntegrityViolation
| Unexpected (e : Exception).

(** Modelled from the spec: [RecordStatusEnum] is imported from
    [qcfractal.interface.models.records], which is not among the source
    files; section 3 gives its members.  The source names the member
    [incomplete] (default of [BaseResultORM.status]). *)
Inductive RecordStatusEnum : Type :=
| incomplete
| complete
| error.

#[global] Instance RecordStatusEnum_eq_dec : EqDecision RecordStatusEnum.
Proof. solve_decision. Defined.

(** Modelled from the spec: the members are stored by name, as the source
    stores [RecordStatusEnum.incomplete]. *)
Definition status_name (s : RecordStatusEnum) : string :=
  match s with
  | incomplete => "incomplete"
  | complete => "complete"
  | error => "error"
  end.

(** Modelled from the spec: the status a row of [base_result] is in. *)
Definition status_of (r : Row) : option RecordStatusEnum :=
  match get r "status" with
  | Str name =>
      if String.eqb name "incomplete" then Some incomplete
      else if String.eqb name "complete" then Some complete
      else if String.eqb name "error" then Some error
      else None
  | _ => None
  end.

(** Modelled from the spec: the edges of the base-result lifecycle
    (section 4.2), [incomplete → complete] and [incomplete → error]. *)
Definition legal_edge (from to : RecordStatusEnum) : bool :=
  match from, to with
  | incomplete, complete | incomplete, error => true
  | _, _ => false
  end.

(** Modelled from the spec: [complete] and [error] are the terminal
    states (section 4.2). *)
Definition terminal (s : RecordStatusEnum) : bool :=
  match s with
  | incomplete => false
  | complete | error => true
  end.

(** Modelled from the spec: the variants of a base result (section 3). *)
Inductive Variant : Type :=
| SingleResult
| OptimizationProcedure
| TorsionDriveProcedure.

(** Modelled from the spec: the kind under which an error of the database
    reaches the caller (section 7). *)
Definition lift {A} (m : Result Exception A) : Result Error A :=
  match m with
  | Ok a => Ok a
  | Raise (IntegrityError ForeignKeyViolation _ _) => Raise NotFound
  | Raise (IntegrityError UniqueViolation _ _) => Raise Conflict
  | Raise e => Raise (Unexpected e)
  end.

(** Modelled from the spec: the deduplication of single results
    (section 3 and the scenario of section 8): the single result already
    stored with the (program, driver, method, basis, molecule, keywords) of
    the inputs, if there is one.  The source declares no such lookup. *)
Definition existing_result (inputs : Row) (db : Database) : option value :=
  match
    List.find
      (λ res, existsb (λ base, bool_decide (get base "id" = get res "id")
                               && bool_decide (dedup_key base res
                                               = dedup_key inputs inputs))
                      (rows db (tablename BaseResultORM)))
      (rows db (tablename ResultORM))
  with
  | Some res => Some (get res "id")
  | None => None
  end.

(** Modelled from the spec: [create_base_result(variant, inputs)]
    (sections 2 and 6), for which the source has no code: a base-result row
    and the row of its variant are created in [incomplete] status; a single
    result whose tuple is already stored is not created again, the call
    returns the id of the existing row.  The rows are stored as the session
    stores an instance of the variant's class ([orm.add]), so the column
    defaults of the source apply. *)
Definition create_base_result (now : Z) (variant : Variant) (inputs : Row)
    (db : Database) : Result Error (value * Database) :=
  let attrs := <["status" := Str (status_name incomplete)]> inputs in
  match variant with
  | SingleResult =>
      match existing_result inputs db with
      | Some id => Ok (id, db)
      | None => lift (add now ResultORM "result" attrs db)
      end
  | OptimizationProcedure =>
      lift (add now OptimizationProcedureORM "optimization_procedure"
              (OptimizationProcedureORM__init__ attrs) db)
  | TorsionDriveProcedure =>
      lift (add now TorsionDriveProcedureORM "torsiondrive_procedure"
              (TorsionDriveProcedureORM__init__ attrs) db)
  end.

(** Modelled from the spec: the status transition of a base result
    (section 4.2), for which the source has no code.  Only the two legal
    edges are taken, any other attempt fails with [InvalidTransition]; an
    unknown id fails with [NotFound]; [modified_on] is set to the time of
    the transition.  The payload that section 4.2 wants written with the
    status (the outputs of the variant, the error blob) is left out: the
    specification does not say how it is passed or what its absence
    raises. *)
Definition transition (now : Z) (id : Z) (target : RecordStatusEnum)
    (db : Database) : Result Error Database :=
  match List.find (has_id id) (rows db (tablename BaseResultORM)) with
  | None => Raise NotFound
  | Some r =>
      match status_of r with
      | Some s =>
          if legal_edge s target then
            Ok (update_where BaseResultORM (has_id id)
                  (λ r, <["status" := Str (status_name target)]>
                          (<["modified_on" := Time now]> r)) db)
          else Raise InvalidTransition
      | None => Raise InvalidTransition
      end
  end.

(** Modelled from the spec: an entry of the service queue is active until
    it resolves; [TaskStatusEnum] (imported from
    [qcfractal.interface.models.task_models], not among the source files)
    has the members waiting, running, error and complete (section 3). *)
Definition active (entry : Row) : bool := live entry.

(** Modelled from the spec: an active entry for the same request, the one
    a submission is a duplicate of (sections 3 and 4.4). *)
Definition same_service (hash_index : string) (entry : Row) : bool :=
  active entry && bool_decide (get entry "hash_index" = Str hash_index).

(** Modelled from the spec: submission to the service queue (section 4.4),
    for which the source has no code.  It is deduplicated by [hash_index]:
    while an entry with the same hash is active no row is created and the
    call fails with [Conflict] (section 7). *)
Definition submit_service (now : Z) (hash_index : string) (procedure_id : Z)
    (tag : value) (db : Database) : Result Error (value * Database) :=
  if existsb (same_service hash_index) (rows db (tablename ServiceQueueORM))
  then Raise Conflict
  else
    '(entry, db) ← lift (insert now ServiceQueueORM
                           {[ "hash_index" := Str hash_index;
                              "procedure_id" := Int procedure_id;
                              "tag" := tag ]} db);
    Ok (get entry "id", db).

(** Modelled from the spec: resolution of a service-queue entry, which
    mirrors the resolution of a task (section 4.4): the entry goes to
    [complete] or [error]; an unknown or already resolved entry fails with
    [NotFound]. *)
Definition resolve_service (id : Z) (succeeded : bool) (db : Database)
    : Result Error Database :=
  match List.find (has_id id) (rows db (tablename ServiceQueueORM)) with
  | None => Raise NotFound
  | Some entry =>
      if active entry then
        Ok (update_where ServiceQueueORM (has_id id)
              (λ e, <["status" := Str (if succeeded then "complete" else "error")]> e)
              db)
      else Raise NotFound
  end.

(** Modelled from the spec: the calls a client of the store can make, and
    a run of the store: every call is one transaction, made at some time,
    and a call that fails is rolled back in full (section 7). *)
Inductive Call : Type :=
| CreateBaseResult (variant : Variant) (inputs : Row)
| Transition (id : Z) (target : RecordStatusEnum)
| Enqueue (base_result_id : Z) (priority tag spec : value)
| SubmitService (hash_index : string) (procedure_id : Z) (tag : value)
| ResolveService (id : Z) (succeeded : bool).

(** Modelled from the spec: one call, as a transaction on the database. *)
Definition call (now : Z) (c : Call) (db : Database) : Result Error Database :=
  match c with
  | CreateBaseResult variant inputs =>
      snd <$> create_base_result now variant inputs db
  | Transition id target => transition now id target db
  | Enqueue b priority tag spec => snd <$> lift (enqueue now b priority tag spec db)
  | SubmitService h p tag => snd <$> submit_service now h p tag db
  | ResolveService id succeeded => resolve_service id succeeded db
  end.

(** Modelled from the spec: a failed call leaves the database as it was
    (section 7). *)
Definition step (db : Database) (timed : Z * Call) : Database :=
  match call timed.1 timed.2 db with
  | Ok db' => db'
  | Raise _ => db
  end.

(** Modelled from the spec: the calls of a run, in order. *)
Definition run (calls : list (Z * Call)) (db : Database) : Database :=
  foldl step db calls.

End store.

(** * Properties *)

(** ** Strings *)

Lemma substring_all (s : string) : String.substring 0 (String.length s) s = s.
Proof. induction s as [|a s IH]; simpl; [done | by rewrite IH]. Qed.

Lemma substring_app_suffix (p s : string) :
  String.substring (String.length p) (String.length s) (p +:+ s) = s.
Proof. induction p as [|a p IH]; simpl; [apply substring_all | exact IH]. Qed.

Lemma length_string_app (p s : string) :
  String.length (p +:+ s) = (String.length p + String.length s)%nat.
Proof. induction p as [|a p IH]; simpl; [done | by rewrite IH]. Qed.

Lemma substring_split (n : nat) (s : string) :
  (n <= String.length s)%nat →
  s = String.substring 0 n s +:+ String.substring n (String.length s - n) s.
Proof.
  revert s. induction n as [|n IH]; intros s Hn.
  - simpl. rewrite Nat.sub_0_r, substring_all. by destruct s.
  - destruct s as [|a s]; simpl in *; [lia|].
    rewrite (IH s) at 1 by lia. reflexivity.
Qed.

(** [endswith] is Python's [str.endswith]: it holds exactly when the string
    is some prefix followed by the suffix. *)
Lemma endswith_spec (s suffix : string) :
  endswith s suffix = true ↔ ∃ p, s = p +:+ suffix.
Proof.
  unfold endswith. rewrite andb_true_iff, Nat.leb_le, String.eqb_eq. split.
  - intros [Hlen Hsub].
    exists (String.substring 0 (String.length s - String.length suffix) s).
    pose proof (substring_split (String.length s - String.length suffix) s
                  ltac:(lia)) as Hsplit.
    replace (String.length s - (String.length s - String.length suffix))%nat
      with (String.length suffix) in Hsplit by lia.
    by rewrite Hsub in Hsplit.
  - intros [p ->]. rewrite length_string_app. split; [lia|].
    replace (String.length p + String.length suffix - String.length suffix)%nat
      with (String.length p) by lia.
    apply substring_app_suffix.
Qed.

(** ** Lists *)

Lemma filter_ext_in' {A} (f g : A → bool) (l : list A) :
  (∀ x, f x = g x) → List.filter f l = List.filter g l.
Proof. intros H. apply filter_ext. exact H. Qed.

Lemma filter_all {A} (f : A → bool) (l : list A) :
  (∀ x, f x = true) → List.filter f l = l.
Proof.
  intros H. induction l as [|x l IH]; simpl; [done|]. by rewrite H, IH.
Qed.

Lemma filter_filter_in {A} (f g : A → bool) (l : list A) x :
  x ∈ List.filter f l ↔ x ∈ l ∧ f x = true.
Proof. by rewrite !list_elem_of_In, filter_In. Qed.

(** ** [Base.to_dict] *)

Section to_dict_facts.
Context {V : Type}.
Implicit Types (d : gmap string V) (k : string).

Lemma lookup_pop_all (ks : list string) d k :
  foldl (λ d key, Base.pop key d) d ks !! k
  = if decide (k ∈ ks) then None else d !! k.
Proof.
  revert d. induction ks as [|k' ks IH]; intros d.
  - destruct (decide (k ∈ [])) as [Hin|_]; [|done].
    by apply not_elem_of_nil in Hin.
  - cbn [foldl]. rewrite IH. unfold Base.pop.
    destruct (decide (k ∈ ks)) as [Hin|Hnin];
      destruct (decide (k ∈ k' :: ks)) as [Hin'|Hnin']; try done.
    + exfalso. apply Hnin'. by right.
    + apply elem_of_cons in Hin' as [->|?]; [|done]. apply lookup_delete_eq.
    + apply lookup_delete_ne. intros ->. apply Hnin'. left.
Qed.

Lemma elem_of_keys d k : k ∈ Base.keys d ↔ is_Some (d !! k).
Proof.
  unfold Base.keys. rewrite list_elem_of_fmap. split.
  - intros [[k' v] [-> Hin]]. apply elem_of_map_to_list in Hin. by exists v.
  - intros [v Hv]. exists (k, v). split; [done|]. by apply elem_of_map_to_list.
Qed.

Lemma elem_of_child_objs d k :
  k ∈ List.filter (λ key, endswith key "_obj") (Base.keys d)
  ↔ is_Some (d !! k) ∧ endswith k "_obj" = true.
Proof.
  rewrite list_elem_of_In, filter_In, <- list_elem_of_In, elem_of_keys. tauto.
Qed.

End to_dict_facts.

Local Ltac member_yes :=
  destruct (decide _) as [_|Hn];
  [ reflexivity | exfalso; apply Hn; rewrite !elem_of_cons; tauto ].
Local Ltac member_no :=
  destruct (decide _) as [Hin|_];
  [ exfalso; revert Hin; rewrite !elem_of_cons; tauto | reflexivity ].

(** C10.  For every ORM entity, [to_dict] with its default arguments
    returns a dictionary without the keys ['_sa_instance_state'] and
    ['result_type'] and without any key ending in ['_obj']; with
    [with_id=False] the key ['id'] is left out as well; every other key of
    the instance is returned with its value unchanged. *)
Theorem to_dict_default_arguments {V : Type}
    (self__dict__ : gmap string V) (key : string) :
  Base.to_dict self__dict__ true None true !! key
  = (if String.eqb key "_sa_instance_state" || String.eqb key "result_type"
        || endswith key "_obj"
     then None else self__dict__ !! key)
  ∧ Base.to_dict self__dict__ false None true !! key
    = (if String.eqb key "_sa_instance_state" || String.eqb key "result_type"
          || endswith key "_obj" || String.eqb key "id"
       then None else self__dict__ !! key).
Proof.
  unfold Base.to_dict, Base.db_related_fields. cbn [negb Base.truthy app].
  rewrite !lookup_pop_all.
  destruct (String.eqb_spec key "_sa_instance_state") as [->|H1].
  { cbn [orb]. split; member_yes. }
  destruct (String.eqb_spec key "result_type") as [->|H2].
  { cbn [orb]. split; member_yes. }
  cbn [orb].
  destruct (endswith key "_obj") eqn:Hobj; cbn [orb].
  { destruct (self__dict__ !! key) as [v|] eqn:Hkey.
    - assert (key ∈ List.filter (λ key, endswith key "_obj")
                      (Base.keys self__dict__))
        by (apply elem_of_child_objs; eauto).
      split; member_yes.
    - split; destruct (decide _); reflexivity. }
  assert (key ∉ List.filter (λ key, endswith key "_obj")
                  (Base.keys self__dict__)) as Hnot.
  { rewrite elem_of_child_objs. intros [_ ?]. congruence. }
  split; [member_no|].
  destruct (String.eqb_spec key "id") as [->|H3]; [member_yes | member_no].
Qed.

Section to_dict_arguments.
Import sql.


End to_dict_arguments.

(** ** The database *)

Section database_facts.
Import sql.
Implicit Types (db : Database) (t : Table) (r : Row).

Lemma rows_set_rows db name rs name' :
  rows (set_rows db name rs) name'
  = if String.eqb name' name then rs else rows db name'.
Proof. reflexivity. Qed.

Lemma rows_set_rows_eq db name rs : rows (set_rows db name rs) name = rs.
Proof. by rewrite rows_set_rows, String.eqb_refl. Qed.

Lemma rows_set_rows_ne db name rs name' :
  name' ≠ name → rows (set_rows db name rs) name' = rows db name'.
Proof.
  intros Hne. rewrite rows_set_rows.
  by destruct (String.eqb_spec name' name).
Qed.

Lemma rows_bump db name name' : rows (bump db name) name' = rows db name'.
Proof. reflexivity. Qed.

Lemma occurrences_app r l1 l2 :
  occurrences r (l1 ++ l2) = (occurrences r l1 + occurrences r l2)%nat.
Proof. unfold occurrences. by rewrite List.filter_app, length_app. Qed.

Lemma occurrences_filter (f : Row → bool) r l :
  occurrences r (List.filter f l) = if f r then occurrences r l else 0%nat.
Proof.
  unfold occurrences. induction l as [|r' l IH]; simpl.
  - by destruct (f r).
  - destruct (f r') eqn:Hf; simpl.
    + destruct (bool_decide_reflect (r' = r)) as [->|Hne]; simpl.
      * rewrite IH, Hf. done.
      * exact IH.
    + rewrite IH. destruct (bool_decide_reflect (r' = r)) as [->|Hne]; simpl.
      * by rewrite Hf.
      * done.
Qed.

Lemma occurrences_zero r l : r ∉ l → occurrences r l = 0%nat.
Proof.
  unfold occurrences. induction l as [|r' l IH]; intros Hnin; simpl; [done|].
  apply not_elem_of_cons in Hnin as [Hne Hnin].
  rewrite bool_decide_false by done. by apply IH.
Qed.

Lemma occurrences_pos r l : r ∈ l ↔ (0 < occurrences r l)%nat.
Proof.
  unfold occurrences. induction l as [|r' l IH]; simpl.
  - split; [by intros ?%not_elem_of_nil | lia].
  - rewrite elem_of_cons.
    destruct (bool_decide_reflect (r' = r)) as [->|Hne]; simpl.
    + split; [lia | by left].
    + rewrite <- IH. split; [intros [?|?]; [congruence|done] | by right].
Qed.

Lemma occurrences_NoDup r l :
  NoDup l → r ∈ l → occurrences r l = 1%nat.
Proof.
  unfold occurrences. induction l as [|r' l IH]; intros Hnd Hin.
  - by apply not_elem_of_nil in Hin.
  - apply NoDup_cons in Hnd as [Hnin Hnd]. simpl.
    destruct (bool_decide_reflect (r' = r)) as [->|Hne]; simpl.
    + f_equal. by apply occurrences_zero.
    + apply IH; [done|]. apply elem_of_cons in Hin as [?|?]; [congruence|done].
Qed.

(** *** INSERT *)

Lemma check_Ok v t ok :
  check v t ok = Ok () ↔ Forall (λ c, ok c = true) (columns t).
Proof.
  unfold check. split.
  - destruct (List.find _ _) eqn:Hfind; [done|]. intros _.
    apply Forall_forall. intros c Hc.
    apply list_elem_of_In in Hc.
    pose proof (find_none _ _ Hfind c Hc) as Hn. simpl in Hn.
    by destruct (ok c).
  - intros Hall. destruct (List.find _ _) as [c|] eqn:Hfind; [|done].
    apply find_some in Hfind as [Hc Hn].
    rewrite Forall_forall in Hall. apply list_elem_of_In in Hc.
    rewrite (Hall c Hc) in Hn. done.
Qed.

Lemma check_cases v t ok :
  check v t ok = Ok ()
  ∨ ∃ c, c ∈ columns t ∧ ok c = false
         ∧ check v t ok = Raise (IntegrityError v (tablename t) (c_name c)).
Proof.
  unfold check. destruct (List.find _ _) as [c|] eqn:Hfind; [right|by left].
  apply find_some in Hfind as [Hc Hn]. exists c.
  rewrite list_elem_of_In. split; [done|]. split; [|done].
  by destruct (ok c).
Qed.

(** The database an accepted INSERT leaves behind. *)
Definition inserted (t : Table) (r r' : Row) (db : Database) : Database :=
  let db' := set_rows db (tablename t) (rows db (tablename t) ++ [r']) in
  if uses_sequence t r then bump db' (tablename t) else db'.

Lemma insert_Ok now t r db r' db' :
  insert now t r db = Ok (r', db') ↔
    r' = fill now (nextval db (tablename t)) t r
    ∧ db' = inserted t r r' db
    ∧ Forall (λ c, not_null_ok r' c = true) (columns t)
    ∧ Forall (λ c, unique_ok (rows db (tablename t)) r' c = true) (columns t)
    ∧ Forall (λ c, foreign_key_ok db r' c = true) (columns t).
Proof.
  unfold insert, inserted. rewrite <- !check_Ok.
  set (r0 := fill now (nextval db (tablename t)) t r).
  split.
  - destruct (check NotNullViolation t _) as [[]|e1] eqn:H1; simpl; [|done].
    destruct (check UniqueViolation t _) as [[]|e2] eqn:H2; simpl; [|done].
    destruct (check ForeignKeyViolation t _) as [[]|e3] eqn:H3; simpl; [|done].
    intros [= <- <-]. done.
  - intros (-> & -> & -> & -> & ->). done.
Qed.

Lemma rows_inserted t r r' db name :
  rows (inserted t r r' db) name
  = if String.eqb name (tablename t) then rows db (tablename t) ++ [r']
    else rows db name.
Proof. unfold inserted. by destruct (uses_sequence t r). Qed.

End database_facts.

(** *** DELETE *)

Section delete_facts.
Import sql.

Lemma delete_rows_leaf fuel md t sel db :
  referencing md (tablename t) = [] →
  delete_rows (S fuel) md t sel db
  = Ok (set_rows db (tablename t)
          (List.filter (λ r, negb (sel r)) (rows db (tablename t)))).
Proof. intros Href. simpl. by rewrite Href. Qed.

End delete_facts.

(** ** [Base.update_many_to_many] *)

Section update_many_to_many_facts.
Import sql models.

Lemma as_set_spec (l : option (list Z)) (x : Z) :
  x ∈ Base.as_set l ↔ ∃ xs, l = Some xs ∧ x ∈ xs.
Proof.
  unfold Base.as_set. destruct l as [[|y ys]|]; cbn [Base.truthy default].
  - split; [by intros ?%not_elem_of_empty|].
    intros (xs & [= <-] & Hin). by apply not_elem_of_nil in Hin.
  - rewrite elem_of_list_to_set. split.
    + intros Hin. by exists (y :: ys).
    + by intros (xs & [= <-] & Hin).
  - split; [by intros ?%not_elem_of_empty | by intros (xs & ? & _)].
Qed.

(** What the method relies on in the table it is given: two plain
    columns, the parent's first, and no table that refers to it. *)
Record association (md : list Table) (table : Table) (pc cc : Column) : Prop := {
  assoc_columns : columns table = [pc; cc];
  assoc_names : c_name pc ≠ c_name cc;
  assoc_leaf : referencing md (tablename table) = [];
  assoc_parent_plain : c_primary_key pc = false ∧ c_unique pc = false;
  assoc_child_plain : c_primary_key cc = false ∧ c_unique cc = false;
  assoc_parent_target :
    ∀ fk, c_foreign_key pc = Some fk → fk_table fk ≠ tablename table;
  assoc_child_target :
    ∀ fk, c_foreign_key cc = Some fk → fk_table fk ≠ tablename table
}.

Context (md : list Table) (table : Table) (pc cc : Column).
Context (Hassoc : association md table pc cc).
Context (now pid : Z).

Lemma link_parent c : get (Base.link table pid c) (c_name pc) = Int pid.
Proof.
  unfold Base.link, get. rewrite (assoc_columns _ _ _ _ Hassoc). simpl.
  by rewrite lookup_insert_eq.
Qed.

Lemma link_child c : get (Base.link table pid c) (c_name cc) = Int c.
Proof.
  unfold Base.link, get. rewrite (assoc_columns _ _ _ _ Hassoc). simpl.
  rewrite lookup_insert_ne by apply (assoc_names _ _ _ _ Hassoc).
  by rewrite lookup_insert_eq.
Qed.

Lemma link_inj c c' : Base.link table pid c = Base.link table pid c' → c = c'.
Proof.
  intros Heq. pose proof (link_child c) as H1. rewrite Heq, link_child in H1.
  congruence.
Qed.

Lemma values_link c :
  Base.values table [Int pid; Int c] = Ok (Base.link table pid c).
Proof.
  unfold Base.values. rewrite (assoc_columns _ _ _ _ Hassoc). simpl.
  unfold Base.link. by rewrite (assoc_columns _ _ _ _ Hassoc).
Qed.

Lemma mapM_values (cs : list Z) :
  mapM (λ my_id, Base.values table [Int pid; Int my_id]) cs
  = Ok (map (Base.link table pid) cs).
Proof.
  induction cs as [|c cs IH]; simpl; [done|].
  rewrite values_link. simpl. by rewrite IH.
Qed.

Lemma c_parent : Base.c table (c_name pc) = Ok pc.
Proof.
  unfold Base.c. rewrite (assoc_columns _ _ _ _ Hassoc). simpl.
  by rewrite String.eqb_refl.
Qed.

Lemma c_child : Base.c table (c_name cc) = Ok cc.
Proof.
  unfold Base.c. rewrite (assoc_columns _ _ _ _ Hassoc). simpl.
  destruct (String.eqb_spec (c_name pc) (c_name cc)) as [Heq|_].
  - by destruct (assoc_names _ _ _ _ Hassoc).
  - by rewrite String.eqb_refl.
Qed.

Lemma fill_link next c :
  fill now next table (Base.link table pid c) = Base.link table pid c.
Proof.
  unfold fill, Base.link. rewrite (assoc_columns _ _ _ _ Hassoc). simpl.
  unfold stored_value.
  rewrite lookup_insert_eq.
  rewrite lookup_insert_ne by apply (assoc_names _ _ _ _ Hassoc).
  by rewrite lookup_insert_eq.
Qed.

Lemma uses_sequence_link c : uses_sequence table (Base.link table pid c) = false.
Proof.
  unfold uses_sequence, autoincrement.
  rewrite (assoc_columns _ _ _ _ Hassoc). simpl.
  destruct (assoc_parent_plain _ _ _ _ Hassoc) as [-> _].
  destruct (assoc_child_plain _ _ _ _ Hassoc) as [-> _]. done.
Qed.

(** The foreign keys of a Base.link are satisfied: the ids exist in the DB. *)
Definition ids_exist (db : Database) (c : Z) : Prop :=
  foreign_key_ok db (Base.link table pid c) pc = true
  ∧ foreign_key_ok db (Base.link table pid c) cc = true.

Lemma foreign_key_ok_frame db db' r col :
  col ∈ columns table →
  (∀ name, name ≠ tablename table → rows db' name = rows db name) →
  foreign_key_ok db' r col = foreign_key_ok db r col.
Proof.
  intros Hcol Hframe. unfold foreign_key_ok.
  destruct (c_foreign_key col) as [fk|] eqn:Hfk; [|done].
  rewrite Hframe; [done|].
  rewrite (assoc_columns _ _ _ _ Hassoc) in Hcol.
  apply elem_of_cons in Hcol as [->|Hcol].
  - by apply (assoc_parent_target _ _ _ _ Hassoc).
  - apply list_elem_of_singleton in Hcol as ->.
    by apply (assoc_child_target _ _ _ _ Hassoc).
Qed.

Lemma ids_exist_frame db db' c :
  (∀ name, name ≠ tablename table → rows db' name = rows db name) →
  ids_exist db c → ids_exist db' c.
Proof.
  intros Hframe [H1 H2]. unfold ids_exist.
  rewrite !(foreign_key_ok_frame db db') by
    (try done; rewrite (assoc_columns _ _ _ _ Hassoc); set_solver).
  done.
Qed.

Lemma insert_link db c :
  ids_exist db c →
  insert now table (Base.link table pid c) db
  = Ok (Base.link table pid c,
        set_rows db (tablename table)
          (rows db (tablename table) ++ [Base.link table pid c])).
Proof.
  intros [Hp Hc].
  pose proof (insert_Ok now table (Base.link table pid c) db (Base.link table pid c)
    (inserted table (Base.link table pid c) (Base.link table pid c) db)) as [_ Hok].
  rewrite Hok.
  - unfold inserted. by rewrite uses_sequence_link.
  - rewrite fill_link. split; [done|]. split; [done|].
    rewrite (assoc_columns _ _ _ _ Hassoc).
    destruct (assoc_parent_plain _ _ _ _ Hassoc) as [Hp1 Hp2].
    destruct (assoc_child_plain _ _ _ _ Hassoc) as [Hc1 Hc2].
    split; [|split].
    + repeat constructor; unfold not_null_ok;
        rewrite ?link_parent, ?link_child; apply orb_true_iff; right;
        by apply bool_decide_eq_true.
    + repeat constructor; unfold unique_ok;
        rewrite ?Hp1, ?Hp2, ?Hc1, ?Hc2; done.
    + repeat constructor; done.
Qed.

Lemma insert_many_links cs db :
  (∀ c, c ∈ cs → ids_exist db c) →
  ∃ db', insert_many now table (map (Base.link table pid) cs) db = Ok db'
    ∧ rows db' (tablename table)
      = rows db (tablename table) ++ map (Base.link table pid) cs
    ∧ ∀ name, name ≠ tablename table → rows db' name = rows db name.
Proof.
  revert db. induction cs as [|c cs IH]; intros db Hids; simpl.
  - exists db. by rewrite app_nil_r.
  - rewrite insert_link by (apply Hids; left). simpl.
    destruct (IH (set_rows db (tablename table)
                    (rows db (tablename table) ++ [Base.link table pid c])))
      as (db' & -> & Hrows & Hframe).
    { intros c' Hc'. eapply ids_exist_frame; [|apply Hids; by right].
      intros name Hne. by apply rows_set_rows_ne. }
    exists db'. split; [done|]. split.
    + rewrite Hrows, rows_set_rows_eq, <- app_assoc. done.
    + intros name Hne. rewrite Hframe by done. by apply rows_set_rows_ne.
Qed.


(** The rows selected by the WHERE clause of the method's DELETE. *)
Definition removed (to_del : gset Z) (r : Row) : bool :=
  holds (And (Eq (c_name pc) (Int pid))
             (In_ (c_name cc) (map Int (elements to_del)))) r.

Lemma removed_spec to_del r :
  removed to_del r = true
  ↔ get r (c_name pc) = Int pid ∧ ∃ c, c ∈ to_del ∧ get r (c_name cc) = Int c.
Proof.
  unfold removed. simpl.
  rewrite !andb_true_iff, !bool_decide_eq_true. split.
  - intros [[_ Hp] [_ Hin]]. split; [done|].
    apply list_elem_of_fmap in Hin as (c & Hc & Hin).
    exists c. split; [|done]. by apply elem_of_elements.
  - intros [Hp (c & Hin & Hc)]. rewrite Hp, Hc. repeat split; try done.
    apply list_elem_of_fmap. exists c. split; [done|]. by apply elem_of_elements.
Qed.

Lemma removed_empty r : removed ∅ r = false.
Proof.
  apply not_true_is_false. rewrite removed_spec.
  intros [_ (c & Hin & _)]. by apply not_elem_of_empty in Hin.
Qed.

Lemma NoDup_links (to_add : gset Z) :
  NoDup (map (Base.link table pid) (elements to_add)).
Proof.
  apply (NoDup_fmap_2_strong (Base.link table pid)); [|apply NoDup_elements].
  intros c c' _ _. apply link_inj.
Qed.

Lemma elem_of_links (to_add : gset Z) r :
  r ∈ map (Base.link table pid) (elements to_add)
  ↔ ∃ c, c ∈ to_add ∧ r = Base.link table pid c.
Proof.
  rewrite list_elem_of_fmap. split; intros (c & H1 & H2); exists c.
  - split; [by apply elem_of_elements | done].
  - split; [done | by apply elem_of_elements].
Qed.

Lemma update_many_to_many_effect session new_list old_list :
  let old_set := Base.as_set old_list in
  let new_set := Base.as_set new_list in
  (∀ c, c ∈ new_set ∖ old_set → ids_exist (bind session) c) →
  ∃ session',
    Base.update_many_to_many md now session table (c_name pc) (c_name cc)
      pid new_list old_list = (session', None)
    ∧ (∀ r, occurrences r (rows (bind session') (tablename table))
            = if removed (old_set ∖ new_set) r then 0%nat
              else (occurrences r (rows (bind session) (tablename table))
                    + occurrences r (map (Base.link table pid)
                                         (elements (new_set ∖ old_set))))%nat)
    ∧ (∀ name, name ≠ tablename table →
         rows (bind session') name = rows (bind session) name).
Proof.
  intros old_set new_set Hids. unfold Base.update_many_to_many.
  fold old_set new_set.
  destruct (bool_decide_reflect (old_set ≠ new_set)) as [Hne|Heq].
  2:{ exists session. split; [done|]. split; [|done]. intros r.
      apply dec_stable in Heq.
      assert (old_set ∖ new_set = ∅) as -> by set_solver.
      assert (new_set ∖ old_set = ∅) as -> by set_solver.
      rewrite removed_empty, elements_empty. unfold occurrences. simpl. lia. }
  (* the DELETE *)
  assert (∃ s1,
    (if bool_decide (old_set ∖ new_set ≠ ∅)
     then match stmt ← Base.delete_statement table (c_name pc) (c_name cc)
                         pid (old_set ∖ new_set);
                execute md now stmt session with
          | Ok session' => (session', None)
          | Raise e => (session, Some e)
          end
     else (session, None)) = (s1, None)
    ∧ rows (bind s1) (tablename table)
      = List.filter (λ r, negb (removed (old_set ∖ new_set) r))
                    (rows (bind session) (tablename table))
    ∧ (∀ name, name ≠ tablename table →
         rows (bind s1) name = rows (bind session) name))
    as (s1 & -> & Hrows1 & Hframe1).
  { destruct (bool_decide_reflect (old_set ∖ new_set ≠ ∅)) as [Hdel|Hnodel].
    - unfold Base.delete_statement. rewrite c_parent, c_child. simpl.
      unfold execute, delete_where. cbn [mbind Result_bind].
      rewrite delete_rows_leaf by apply (assoc_leaf _ _ _ _ Hassoc).
      eexists. split; [reflexivity|]. cbn [bind]. split.
      + by rewrite rows_set_rows_eq.
      + intros name Hname. by apply rows_set_rows_ne.
    - exists session. split; [done|]. split; [|done].
      apply dec_stable in Hnodel. rewrite Hnodel.
      clear. induction (rows (bind session) (tablename table)) as [|r l IH]; [done|].
      simpl. rewrite removed_empty. simpl. by rewrite <- IH. }
  (* the INSERT *)
  destruct (bool_decide_reflect (new_set ∖ old_set ≠ ∅)) as [Hadd|Hnoadd].
  - unfold Base.insert_statement.
    rewrite mapM_values. simpl. unfold execute. cbn [mbind Result_bind].
    destruct (insert_many_links (elements (new_set ∖ old_set)) (bind s1))
      as (db' & -> & Hrows & Hframe).
    { intros c Hc. apply elem_of_elements in Hc.
      eapply ids_exist_frame; [|by apply Hids]. done. }
    eexists. split; [reflexivity|]. cbn [bind]. split.
    + intros r. rewrite Hrows, occurrences_app, Hrows1, occurrences_filter.
      destruct (removed (old_set ∖ new_set) r) eqn:Hrem; simpl; [|done].
      rewrite occurrences_zero; [done|].
      intros Hin. apply list_elem_of_fmap in Hin as (c & -> & Hc).
      apply elem_of_elements in Hc.
      apply removed_spec in Hrem as [_ (c' & Hc' & Hget)].
      rewrite link_child in Hget. set_solver.
    + intros name Hname. by rewrite Hframe, Hframe1.
  - exists s1. split; [done|]. split; [|done].
    intros r. apply dec_stable in Hnoadd. rewrite Hnoadd, elements_empty.
    rewrite Hrows1, occurrences_filter. unfold occurrences. simpl.
    destruct (removed _ r); simpl; lia.
Qed.

End update_many_to_many_facts.

Section update_many_to_many_claims.
Import sql models.

Lemma association_tables_ok table pc cc :
  table ∈ association_tables → columns table = [pc; cc] →
  association metadata table pc cc.
Proof.
  unfold association_tables. rewrite !elem_of_cons, elem_of_nil.
  intros [->|[->|[->|[]]]] [= <- <-];
    (split; [reflexivity | by vm_compute | reflexivity | by split
            | by split | by intros fk [= <-] | by intros fk [= <-]]).
Qed.

Lemma elem_of_as_set (l : option (list Z)) (x : Z) :
  x ∈ Base.as_set l ↔ x ∈ default [] l.
Proof.
  rewrite as_set_spec. destruct l as [xs|]; simpl.
  - split; [by intros (? & [= <-] & ?) | by exists xs].
  - split; [by intros (? & ? & _) | by intros ?%not_elem_of_nil].
Qed.

(** The tuple [(parent_id_val, my_id)] is filed by position: the first
    value under the table's first column, the second under its second. *)
Lemma link_row (table : Table) (pc cc : Column) (parent_id_val my_id : Z) :
  columns table = [pc; cc] →
  Base.link table parent_id_val my_id
  = {[ c_name pc := Int parent_id_val; c_name cc := Int my_id ]}.
Proof.
  intros Hcols. unfold Base.link. rewrite Hcols. simpl. by rewrite insert_empty.
Qed.

(** A database with one optimization (id 1) and three results (ids 10, 11
    and 12), the first two of which are on the optimization's trajectory. *)
Definition example_session : Session :=
  let db := empty_database in
  let db := set_rows db "optimization_procedure" [ {[ "id" := Int 1 ]} ] in
  let db := set_rows db "result"
              [ {[ "id" := Int 10 ]}; {[ "id" := Int 11 ]}; {[ "id" := Int 12 ]} ] in
  let db := set_rows db "opt_result_association"
              [ Base.link opt_result_association 1 10;
                Base.link opt_result_association 1 11 ] in
  {| bind := db; executed := [] |}.

(** Two torsion drives (ids 1 and 2) and two molecules (ids 1 and 2); no
    initial molecule is linked yet. *)
Definition example_torsiondrives : Session :=
  let db := empty_database in
  let db := set_rows db "torsiondrive_procedure"
              [ {[ "id" := Int 1 ]}; {[ "id" := Int 2 ]} ] in
  let db := set_rows db "molecule" [ {[ "id" := Int 1 ]}; {[ "id" := Int 2 ]} ] in
  {| bind := db; executed := [] |}.

(** C1, as stated for every call, fails.  The DELETE selects its rows by
    the column names it is given, the INSERT files the tuple
    [(parent_id_val, my_id)] by column position.  A call that names the
    second column of the table as the parent,
    [update_many_to_many(torj_init_mol_association, 'molecule_id',
    'torj_id', 2, [1], None)], is to link molecule 2 (the parent) to torsion
    drive 1: the one row it stores has [molecule_id = 1] and [torj_id = 2],
    the link of torsion drive 2 to molecule 1.  And an id to link that does
    not exist makes the INSERT fail: with result 13 missing,
    [update_many_to_many(opt_result_association, 'opt_id', 'result_id', 1,
    [11, 13], [10, 11])] raises and no link to result 13 is stored. *)
Lemma update_many_to_many_files_links_by_position :
  (let '(session', raised) :=
     Base.update_many_to_many metadata 0 example_torsiondrives
       torj_init_mol_association "molecule_id" "torj_id" 2 (Some [1]) None in
   raised = None
   ∧ map (λ r, (get r "molecule_id", get r "torj_id"))
         (rows (bind session') "torj_init_mol_association")
     = [ (Int 1, Int 2) ])
  ∧ (let '(session', raised) :=
       Base.update_many_to_many metadata 0 example_session
         opt_result_association "opt_id" "result_id" 1
         (Some [11; 13]) (Some [10; 11]) in
     raised = Some (IntegrityError ForeignKeyViolation
                      "opt_result_association" "result_id")
     ∧ List.filter (λ r, bool_decide (get r "result_id" = Int 13))
                   (rows (bind session') "opt_result_association")
       = []).
Proof. vm_compute. by repeat split. Qed.

(** C1, amended.  For an update of a many-to-many association through
    [update_many_to_many(table, parent_id_name, child_id_name,
    parent_id_val, new_list, old_list)] in which [parent_id_name] and
    [child_id_name] are the first and the second column of the association
    table and the ids to link exist in the database, the writes are exactly
    the symmetric difference of the old and the new membership: the links
    of [parent_id_val] to a child that is in the old list and not in the
    new one are deleted, one link is inserted for every child that is in
    the new list and not in the old one, every other row of the table is
    stored as often as before, and no other table changes.  ([None] counts
    as the empty list.) *)
Theorem update_many_to_many_symmetric_difference
    (now : Z) (session : Session) (table : Table) (pc cc : Column)
    (parent_id_val : Z) (new_list old_list : option (list Z)) :
  table ∈ association_tables →
  columns table = [pc; cc] →
  (∀ c, c ∈ default [] new_list → c ∉ default [] old_list →
     foreign_key_ok (bind session)
       {[ c_name pc := Int parent_id_val; c_name cc := Int c ]} pc = true
     ∧ foreign_key_ok (bind session)
         {[ c_name pc := Int parent_id_val; c_name cc := Int c ]} cc = true) →
  ∃ session',
    Base.update_many_to_many metadata now session table (c_name pc) (c_name cc)
      parent_id_val new_list old_list = (session', None)
    ∧ (∀ r c, c ∈ default [] old_list → c ∉ default [] new_list →
              get r (c_name pc) = Int parent_id_val →
              get r (c_name cc) = Int c →
              r ∉ rows (bind session') (tablename table))
    ∧ (∀ c, c ∈ default [] new_list → c ∉ default [] old_list →
            occurrences {[ c_name pc := Int parent_id_val; c_name cc := Int c ]}
              (rows (bind session') (tablename table))
            = S (occurrences
                   {[ c_name pc := Int parent_id_val; c_name cc := Int c ]}
                   (rows (bind session) (tablename table))))
    ∧ (∀ r, ¬ (get r (c_name pc) = Int parent_id_val
               ∧ ∃ c, c ∈ default [] old_list ∧ c ∉ default [] new_list
                      ∧ get r (c_name cc) = Int c) →
            ¬ (∃ c, c ∈ default [] new_list ∧ c ∉ default [] old_list
                    ∧ r = {[ c_name pc := Int parent_id_val;
                             c_name cc := Int c ]}) →
            occurrences r (rows (bind session') (tablename table))
            = occurrences r (rows (bind session) (tablename table)))
    ∧ (∀ name, name ≠ tablename table →
         rows (bind session') name = rows (bind session) name).
Proof.
  intros Htable Hcols Hids.
  pose proof (association_tables_ok table pc cc Htable Hcols) as Hassoc.
  assert (∀ c, Base.link table parent_id_val c
               = {[ c_name pc := Int parent_id_val; c_name cc := Int c ]})
    as Hlink by (intros c; by apply link_row).
  destruct (update_many_to_many_effect metadata table pc cc Hassoc now
              parent_id_val session new_list old_list)
    as (session' & Hrun & Hocc & Hframe).
  { intros c [Hnew Hold]%elem_of_difference. unfold ids_exist.
    rewrite Hlink. apply Hids; by rewrite <- elem_of_as_set. }
  exists session'. split; [done|]. split; [|split; [|split; [|done]]].
  - intros r c Hold Hnew Hp Hc Hin.
    apply occurrences_pos in Hin. rewrite Hocc in Hin.
    assert (removed pc cc parent_id_val
              (Base.as_set old_list ∖ Base.as_set new_list) r = true) as Hrem.
    { apply removed_spec. split; [done|]. exists c. split; [|done].
      apply elem_of_difference. by rewrite !elem_of_as_set. }
    rewrite Hrem in Hin. lia.
  - intros c Hnew Hold. rewrite <- Hlink, Hocc.
    destruct (removed pc cc parent_id_val _ _) eqn:Hrem.
    + apply removed_spec in Hrem as [_ (c' & Hc' & Hget)].
      rewrite (link_child metadata table pc cc Hassoc) in Hget.
      injection Hget as <-.
      apply elem_of_difference in Hc' as [Hold' _].
      by apply elem_of_as_set in Hold'.
    + rewrite (occurrences_NoDup _ (map _ _)); [lia| |].
      * by apply (NoDup_links metadata table pc cc Hassoc).
      * apply elem_of_links. exists c. split; [|done].
        apply elem_of_difference. by rewrite !elem_of_as_set.
  - intros r Hkeep Hnew. rewrite Hocc.
    destruct (removed pc cc parent_id_val _ _) eqn:Hrem.
    + apply removed_spec in Hrem as [Hp (c & Hc & Hget)]. destruct Hkeep.
      split; [done|]. exists c.
      apply elem_of_difference in Hc as [Hold Hnotnew].
      by rewrite !elem_of_as_set in Hold, Hnotnew.
    + rewrite (occurrences_zero _ (map _ _)); [lia|].
      rewrite elem_of_links. intros (c & Hc & ->). apply Hnew. exists c.
      apply elem_of_difference in Hc as [Hin Hnotold].
      rewrite !elem_of_as_set in Hin, Hnotold. by rewrite Hlink.
Qed.

Lemma update_many_to_many_symmetric_difference_witness :
  ∃ session',
    Base.update_many_to_many metadata 0 example_session opt_result_association
      "opt_id" "result_id" 1 (Some [11; 12]) (Some [10; 11]) = (session', None)
    ∧ (∀ r, get r "opt_id" = Int 1 → get r "result_id" = Int 10 →
            r ∉ rows (bind session') "opt_result_association")
    ∧ occurrences {[ "opt_id" := Int 1; "result_id" := Int 12 ]}
        (rows (bind session') "opt_result_association") = 1%nat.
Proof.
  destruct (update_many_to_many_symmetric_difference 0 example_session
              opt_result_association
              (references "optimization_procedure.id" (Some "CASCADE")
                 (column "opt_id" Integer))
              (references "result.id" (Some "CASCADE")
                 (column "result_id" Integer))
              1 (Some [11; 12]) (Some [10; 11]))
    as (session' & Hrun & Hdel & Hadd & _).
  - unfold association_tables. left.
  - reflexivity.
  - intros c Hnew Hold. simpl in Hnew, Hold.
    assert (c = 12) as ->.
    { rewrite !elem_of_cons, elem_of_nil in Hnew.
      rewrite !elem_of_cons, elem_of_nil in Hold.
      destruct Hnew as [->|[->|[]]]; [|done]. destruct Hold. right. by left. }
    split; vm_compute; reflexivity.
  - exists session'. split; [exact Hrun|]. split.
    + intros r Hp Hc. apply (Hdel r 10); simpl; try done.
      * rewrite !elem_of_cons. by left.
      * rewrite !elem_of_cons, elem_of_nil. intros [|[|[]]]; done.
    + change (occurrences {[ "opt_id" := Int 1; "result_id" := Int 12 ]}
                (rows (bind session') "opt_result_association"))
        with (occurrences
                {[ c_name (references "optimization_procedure.id" (Some "CASCADE")
                             (column "opt_id" Integer)) := Int 1;
                   c_name (references "result.id" (Some "CASCADE")
                             (column "result_id" Integer)) := Int 12 ]}
                (rows (bind session') (tablename opt_result_association))).
      rewrite Hadd; simpl.
      * by vm_compute.
      * rewrite !elem_of_cons. right. by left.
      * rewrite !elem_of_cons, elem_of_nil. intros [|[|[]]]; done.
Defined.

(** C9.  [update_many_to_many] does nothing when the new list denotes the
    same set as the old one (the lists may differ in order and in
    repetitions, and [None] counts as empty): the session is left as it
    was, no DELETE and no INSERT is executed. *)
Theorem update_many_to_many_same_set
    (md : list Table) (now : Z) (session : Session) (table : Table)
    (parent_id_name child_id_name : string) (parent_id_val : Z)
    (new_list old_list : option (list Z)) :
  (∀ x, x ∈ default [] new_list ↔ x ∈ default [] old_list) →
  Base.update_many_to_many md now session table parent_id_name child_id_name
    parent_id_val new_list old_list = (session, None).
Proof.
  intros Hsame. unfold Base.update_many_to_many.
  assert (Base.as_set old_list = Base.as_set new_list) as Heq.
  { apply set_eq. intros x. rewrite !as_set_spec. split.
    - intros (xs & -> & Hin). destruct new_list as [ys|]; simpl in *.
      + exists ys. split; [done|]. by apply Hsame.
      + by apply Hsame, not_elem_of_nil in Hin.
    - intros (xs & -> & Hin). destruct old_list as [ys|]; simpl in *.
      + exists ys. split; [done|]. by apply Hsame.
      + by apply Hsame, not_elem_of_nil in Hin. }
  rewrite bool_decide_false; [done|]. by intros Hne.
Qed.

Lemma update_many_to_many_same_set_witness :
  Base.update_many_to_many metadata 0 example_session opt_result_association
    "opt_id" "result_id" 1 (Some [11; 10; 10]) (Some [10; 11])
  = (example_session, None).
Proof.
  apply (update_many_to_many_same_set metadata 0 example_session
           opt_result_association "opt_id" "result_id" 1
           (Some [11; 10; 10]) (Some [10; 11])).
  intros x. simpl. rewrite !elem_of_cons, !elem_of_nil. tauto.
Defined.

End update_many_to_many_claims.

(** ** [Base.update_many_to_many]: errors and the statements it issues *)

Section update_many_to_many_errors.
Import sql models.

(** [table.c[name]] raises [KeyError] for a name that is not a column. *)
Lemma c_unknown (table : Table) (name : string) :
  (∀ col, col ∈ columns table → c_name col ≠ name) →
  Base.c table name = Raise (KeyError name).
Proof.
  intros Hnone. unfold Base.c.
  destruct (List.find _ _) as [col|] eqn:Hfind; [|done].
  apply find_some in Hfind as [Hin Heq%String.eqb_eq].
  apply list_elem_of_In in Hin. by destruct (Hnone col Hin).
Qed.

Lemma c_known (table : Table) (name : string) (col : Column) :
  col ∈ columns table → c_name col = name →
  ∃ col', Base.c table name = Ok col' ∧ c_name col' = name.
Proof.
  intros Hin Hname. unfold Base.c.
  destruct (List.find _ _) as [col'|] eqn:Hfind.
  - apply find_some in Hfind as [_ Heq%String.eqb_eq]. by exists col'.
  - apply list_elem_of_In in Hin.
    pose proof (find_none _ _ Hfind col Hin) as Hn. simpl in Hn.
    rewrite Hname, String.eqb_refl in Hn. done.
Qed.

Lemma to_del_nonempty (new_list old_list : option (list Z)) (x : Z) :
  x ∈ default [] old_list → x ∉ default [] new_list →
  Base.as_set old_list ≠ Base.as_set new_list
  ∧ Base.as_set old_list ∖ Base.as_set new_list ≠ ∅.
Proof.
  intros Hold Hnew.
  assert (x ∈ Base.as_set old_list ∖ Base.as_set new_list) as Hx.
  { apply elem_of_difference. by rewrite !elem_of_as_set. }
  split; [|set_solver]. intros Heq. rewrite Heq in Hx. set_solver.
Qed.

Lemma to_del_empty (new_list old_list : option (list Z)) :
  (∀ x, x ∈ default [] old_list → x ∈ default [] new_list) →
  Base.as_set old_list ∖ Base.as_set new_list = ∅.
Proof.
  intros Hsub. apply set_eq. intros x.
  rewrite elem_of_difference, !elem_of_as_set. set_solver.
Qed.



Lemma mapM_Ok {A B} (f : A → Result Exception B) (l : list A) (rs : list B) :
  mapM f l = Ok rs → ∀ r, r ∈ rs ↔ ∃ x, x ∈ l ∧ f x = Ok r.
Proof.
  revert rs. induction l as [|x l IH]; intros rs; cbn [mapM].
  - intros [= <-] r. split; [by intros ?%not_elem_of_nil|].
    by intros (x & ?%not_elem_of_nil & _).
  - destruct (f x) as [y|e] eqn:Hx; cbn [mbind Result_bind]; [|intros [=]].
    destruct (mapM f l) as [k|e] eqn:Hl; cbn [mbind Result_bind mret Result_ret];
      [|intros [=]].
    intros [= <-] r. rewrite elem_of_cons, (IH k eq_refl). split.
    + intros [->|(x' & Hin & Hx')]; [exists x | exists x'];
        (split; [|done]); [left | by right].
    + intros (x' & [->|Hin]%elem_of_cons & Hx').
      * left. congruence.
      * right. by exists x'.
Qed.



End update_many_to_many_errors.

Section update_many_to_many_more.
Import sql models.

Context (md : list Table) (table : Table) (pc cc : Column).
Context (Hassoc : association md table pc cc).
Context (now pid : Z).

(** The DELETE of the method, when the two names are the table's columns. *)
Lemma delete_step session (to_del : gset Z) :
  ∃ s1,
    (if bool_decide (to_del ≠ ∅)
     then match stmt ← Base.delete_statement table (c_name pc) (c_name cc)
                         pid to_del;
                execute md now stmt session with
          | Ok session' => (session', None)
          | Raise e => (session, Some e)
          end
     else (session, None)) = (s1, None)
    ∧ rows (bind s1) (tablename table)
      = List.filter (λ r, negb (removed pc cc pid to_del r))
                    (rows (bind session) (tablename table))
    ∧ (∀ name, name ≠ tablename table →
         rows (bind s1) name = rows (bind session) name).
Proof.
  destruct (bool_decide_reflect (to_del ≠ ∅)) as [Hdel|Hnodel].
  - unfold Base.delete_statement.
    rewrite (c_parent md table pc cc Hassoc), (c_child md table pc cc Hassoc).
    simpl. unfold execute, delete_where. cbn [mbind Result_bind].
    rewrite delete_rows_leaf by apply (assoc_leaf _ _ _ _ Hassoc).
    eexists. split; [reflexivity|]. cbn [bind]. split.
    + by rewrite rows_set_rows_eq.
    + intros name Hname. by apply rows_set_rows_ne.
  - exists session. split; [done|]. split; [|done].
    apply dec_stable in Hnodel. rewrite Hnodel.
    induction (rows (bind session) (tablename table)) as [|r l IH]; [done|].
    simpl. rewrite removed_empty. simpl. by rewrite <- IH.
Qed.

(** An INSERT of a link is accepted, or fails on a foreign key. *)
Lemma insert_link_cases db c :
  (ids_exist table pc cc pid db c
   ∧ insert now table (Base.link table pid c) db
     = Ok (Base.link table pid c,
           set_rows db (tablename table)
             (rows db (tablename table) ++ [Base.link table pid c])))
  ∨ (¬ ids_exist table pc cc pid db c
     ∧ ∃ col, col ∈ [c_name pc; c_name cc]
         ∧ insert now table (Base.link table pid c) db
           = Raise (IntegrityError ForeignKeyViolation (tablename table) col)).
Proof.
  destruct (foreign_key_ok db (Base.link table pid c) pc) eqn:Hp;
    [destruct (foreign_key_ok db (Base.link table pid c) cc) eqn:Hc|].
  - left. split; [done|]. by apply (insert_link md table pc cc Hassoc).
  - right. split; [intros [_ H]; congruence|].
    unfold insert. rewrite (fill_link md table pc cc Hassoc).
    destruct (assoc_parent_plain _ _ _ _ Hassoc) as [Hp1 Hp2].
    destruct (assoc_child_plain _ _ _ _ Hassoc) as [Hc1 Hc2].
    replace (check NotNullViolation table _) with (Ok () : Result Exception ()).
    2:{ symmetry. apply check_Ok. rewrite (assoc_columns _ _ _ _ Hassoc).
        repeat constructor; unfold not_null_ok;
          rewrite ?(link_parent md table pc cc Hassoc),
                  ?(link_child md table pc cc Hassoc);
          apply orb_true_iff; right; by apply bool_decide_eq_true. }
    replace (check UniqueViolation table _) with (Ok () : Result Exception ()).
    2:{ symmetry. apply check_Ok. rewrite (assoc_columns _ _ _ _ Hassoc).
        repeat constructor; unfold unique_ok;
          rewrite ?Hp1, ?Hp2, ?Hc1, ?Hc2; done. }
    cbn [mbind Result_bind]. unfold check.
    rewrite (assoc_columns _ _ _ _ Hassoc). cbn [List.find].
    rewrite Hp, Hc. cbn [negb mbind Result_bind].
    exists (c_name cc). split; [|done]. right. left.
  - right. split; [intros [H _]; congruence|].
    unfold insert. rewrite (fill_link md table pc cc Hassoc).
    destruct (assoc_parent_plain _ _ _ _ Hassoc) as [Hp1 Hp2].
    destruct (assoc_child_plain _ _ _ _ Hassoc) as [Hc1 Hc2].
    replace (check NotNullViolation table _) with (Ok () : Result Exception ()).
    2:{ symmetry. apply check_Ok. rewrite (assoc_columns _ _ _ _ Hassoc).
        repeat constructor; unfold not_null_ok;
          rewrite ?(link_parent md table pc cc Hassoc),
                  ?(link_child md table pc cc Hassoc);
          apply orb_true_iff; right; by apply bool_decide_eq_true. }
    replace (check UniqueViolation table _) with (Ok () : Result Exception ()).
    2:{ symmetry. apply check_Ok. rewrite (assoc_columns _ _ _ _ Hassoc).
        repeat constructor; unfold unique_ok;
          rewrite ?Hp1, ?Hp2, ?Hc1, ?Hc2; done. }
    cbn [mbind Result_bind]. unfold check.
    rewrite (assoc_columns _ _ _ _ Hassoc). cbn [List.find].
    rewrite Hp. cbn [negb mbind Result_bind].
    exists (c_name pc). split; [|done]. left.
Qed.

Lemma ids_exist_frame_iff db db' c :
  (∀ name, name ≠ tablename table → rows db' name = rows db name) →
  ids_exist table pc cc pid db' c ↔ ids_exist table pc cc pid db c.
Proof.
  intros Hframe. split.
  - apply (ids_exist_frame md table pc cc Hassoc). intros name Hne.
    symmetry. by apply Hframe.
  - by apply (ids_exist_frame md table pc cc Hassoc).
Qed.

(** A multi-row INSERT of links, one of which names an id that does not
    exist, fails as a whole. *)
Lemma insert_many_links_fail cs db c :
  c ∈ cs → ¬ ids_exist table pc cc pid db c →
  ∃ col, col ∈ [c_name pc; c_name cc]
    ∧ insert_many now table (map (Base.link table pid) cs) db
      = Raise (IntegrityError ForeignKeyViolation (tablename table) col).
Proof.
  revert db. induction cs as [|c' cs IH]; intros db Hin Hmiss.
  - by apply not_elem_of_nil in Hin.
  - cbn [map insert_many].
    destruct (insert_link_cases db c') as [[Hok ->]|[Hbad (col & Hcol & ->)]].
    + cbn [mbind Result_bind].
      apply elem_of_cons in Hin as [->|Hin]; [done|].
      apply IH; [done|]. rewrite ids_exist_frame_iff; [done|].
      intros name Hne. by apply rows_set_rows_ne.
    + exists col. split; [done|]. reflexivity.
Qed.

End update_many_to_many_more.

Section readers_after_update.
Import sql models orm.

Context (md : list Table) (table : Table) (pc cc : Column).
Context (Hassoc : association md table pc cc).
Context (now pid : Z).

Lemma holds_Eq_Int (col : string) (i : Z) (r : Row) :
  holds (Eq col (Int i)) r = true ↔ get r col = Int i.
Proof.
  simpl. rewrite andb_true_iff, !bool_decide_eq_true. split; [tauto|].
  intros H. rewrite H. done.
Qed.

(** The children of [pid] that a reader of the association finds after an
    update whose old list names the children stored before it. *)
Lemma children_after_update session session' (new_list old_list : option (list Z)) :
  (∀ r, r ∈ rows (bind session) (tablename table) →
        get r (c_name pc) = Int pid →
        ∃ c, get r (c_name cc) = Int c ∧ c ∈ default [] old_list) →
  (∀ c, c ∈ default [] old_list →
        ∃ r, r ∈ rows (bind session) (tablename table)
             ∧ get r (c_name pc) = Int pid ∧ get r (c_name cc) = Int c) →
  (∀ r, occurrences r (rows (bind session') (tablename table))
        = if removed pc cc pid (Base.as_set old_list ∖ Base.as_set new_list) r
          then 0%nat
          else (occurrences r (rows (bind session) (tablename table))
                + occurrences r
                    (map (Base.link table pid)
                         (elements (Base.as_set new_list ∖ Base.as_set old_list))))%nat) →
  ∀ v, v ∈ map (λ r, get r (c_name cc))
               (List.filter (holds (Eq (c_name pc) (Int pid)))
                            (rows (bind session') (tablename table)))
       ↔ ∃ c, v = Int c ∧ c ∈ default [] new_list.
Proof.
  intros Hstored Hold Hocc v.
  assert (∀ r, r ∈ rows (bind session') (tablename table) ↔
               removed pc cc pid (Base.as_set old_list ∖ Base.as_set new_list) r
               = false
               ∧ (r ∈ rows (bind session) (tablename table)
                  ∨ ∃ c, c ∈ Base.as_set new_list ∖ Base.as_set old_list
                         ∧ r = Base.link table pid c)) as Hrows.
  { intros r. rewrite occurrences_pos, Hocc.
    destruct (removed _ _ _ _ r); [split; [lia | by intros [? _]]|].
    rewrite <- (elem_of_links table pid), !occurrences_pos. split.
    - intros H. split; [done|]. lia.
    - intros [_ [H|H]]; lia. }
  rewrite list_elem_of_fmap. split.
  - intros (r & -> & Hin). apply filter_filter_in in Hin as [Hin Hp];
      [|exact (λ _, true)].
    apply holds_Eq_Int in Hp. apply Hrows in Hin as [Hkeep [Hin|(c & Hc & ->)]].
    + destruct (Hstored r Hin Hp) as (c & Hc & Hcold). exists c. split; [done|].
      destruct (decide (c ∈ default [] new_list)) as [|Hnot]; [done|].
      exfalso. apply not_true_iff_false in Hkeep. apply Hkeep.
      apply removed_spec. split; [done|]. exists c. split; [|done].
      apply elem_of_difference. by rewrite !elem_of_as_set.
    + exists c. rewrite (link_child md table pc cc Hassoc). split; [done|].
      apply elem_of_difference in Hc as [Hc _]. by apply elem_of_as_set in Hc.
  - intros (c & -> & Hc).
    destruct (decide (c ∈ default [] old_list)) as [Hcold|Hcnew].
    + destruct (Hold c Hcold) as (r & Hin & Hp & Hchild). exists r.
      split; [done|]. apply filter_filter_in; [exact (λ _, true)|].
      split; [|by apply holds_Eq_Int]. apply Hrows. split; [|by left].
      apply not_true_is_false. intros [_ (c' & Hc' & Hget)]%removed_spec.
      rewrite Hchild in Hget. injection Hget as <-.
      apply elem_of_difference in Hc' as [_ Hc']. by rewrite elem_of_as_set in Hc'.
    + exists (Base.link table pid c).
      rewrite (link_child md table pc cc Hassoc). split; [done|].
      apply filter_filter_in; [exact (λ _, true)|]. split.
      * apply Hrows. split.
        -- apply not_true_is_false. intros [_ (c' & Hc' & Hget)]%removed_spec.
           rewrite (link_child md table pc cc Hassoc) in Hget.
           injection Hget as <-.
           apply elem_of_difference in Hc' as [Hc' _].
           by rewrite elem_of_as_set in Hc'.
        -- right. exists c. split; [|done].
           apply elem_of_difference. by rewrite !elem_of_as_set.
      * apply holds_Eq_Int. apply (link_parent md table pc cc Hassoc).
Qed.

(** What [array_agg] returns for values with a known membership. *)
Lemma array_agg_members (selected : list value) (members : list Z)
    (result : option (list value)) :
  (∀ v, v ∈ selected ↔ ∃ c, v = Int c ∧ c ∈ members) →
  array_agg selected result →
  match result with
  | None => members = []
  | Some array => members ≠ [] ∧ ∀ v, v ∈ array ↔ ∃ c, v = Int c ∧ c ∈ members
  end.
Proof.
  intros Hmem. destruct result as [array|]; simpl.
  - intros [Hne Hperm]. split.
    + intros ->. destruct selected as [|v vs]; [done|].
      destruct (proj1 (Hmem v)) as (c & _ & Hc); [left|].
      by apply not_elem_of_nil in Hc.
    + intros v. by rewrite Hperm.
  - intros ->. destruct members as [|c cs]; [done|].
    assert (Int c ∈ @nil value) as Hin by (apply Hmem; exists c; split; [done|left]).
    by apply not_elem_of_nil in Hin.
Qed.

Lemma array_agg_total (selected : list value) :
  ∃ result, array_agg selected result.
Proof.
  destruct selected as [|v vs]; [by exists None|].
  exists (Some (v :: vs)). by split.
Qed.

End readers_after_update.

Section update_many_to_many_more_claims.
Import sql models orm.






(** A torsion drive (id 9) with no optimization in its history yet, and
    two optimizations (ids 1 and 2). *)
Definition example_torsiondrive_session : Session :=
  let db := empty_database in
  let db := set_rows db "torsiondrive_procedure" [ {[ "id" := Int 9 ]} ] in
  let db := set_rows db "optimization_procedure"
              [ {[ "id" := Int 1 ]}; {[ "id" := Int 2 ]} ] in
  {| bind := db; executed := [] |}.


End update_many_to_many_more_claims.

Section update_many_to_many_remove.
Import sql models.

Context (md : list Table) (table : Table).
Context (Hleaf : referencing md (tablename table) = []).
Context (now pid : Z).

(** The DELETE of the method, for any two names that are columns of the
    table. *)
Lemma delete_step_by_name session (a b : Column) (to_del : gset Z) :
  Base.c table (c_name a) = Ok a → Base.c table (c_name b) = Ok b →
  ∃ s1,
    (if bool_decide (to_del ≠ ∅)
     then match stmt ← Base.delete_statement table (c_name a) (c_name b)
                         pid to_del;
                execute md now stmt session with
          | Ok session' => (session', None)
          | Raise e => (session, Some e)
          end
     else (session, None)) = (s1, None)
    ∧ rows (bind s1) (tablename table)
      = List.filter (λ r, negb (removed a b pid to_del r))
                    (rows (bind session) (tablename table))
    ∧ (∀ name, name ≠ tablename table →
         rows (bind s1) name = rows (bind session) name).
Proof.
  intros Ha Hb.
  destruct (bool_decide_reflect (to_del ≠ ∅)) as [Hdel|Hnodel].
  - unfold Base.delete_statement. rewrite Ha, Hb.
    simpl. unfold execute, delete_where. cbn [mbind Result_bind].
    rewrite delete_rows_leaf by done.
    eexists. split; [reflexivity|]. cbn [bind]. split.
    + by rewrite rows_set_rows_eq.
    + intros name Hname. by apply rows_set_rows_ne.
  - exists session. split; [done|]. split; [|done].
    apply dec_stable in Hnodel. rewrite Hnodel.
    induction (rows (bind session) (tablename table)) as [|r l IH]; [done|].
    simpl. rewrite removed_empty. simpl. by rewrite <- IH.
Qed.

End update_many_to_many_remove.

Section update_many_to_many_remove_claims.
Import sql models.



End update_many_to_many_remove_claims.


(** ** The association tables of the ordered sequences *)

Section ordered_association_claims.
Import sql models orm.

(** C2, as stated, fails: neither [opt_result_association] nor
    [torj_opt_association] has a column besides its two foreign keys, so
    the claim that every ordered association table carries a
    sequence-position column is false. *)
Lemma ordered_associations_lack_position_column :
  ¬ (∀ t, t ∈ ordered_associations → carries_position_column t).
Proof.
  intros Hall.
  destruct (Hall opt_result_association) as (c & Hc & Hfk); [by left|].
  simpl in Hc. rewrite !elem_of_cons, elem_of_nil in Hc.
  destruct Hc as [->|[->|[]]]; discriminate Hfk.
Qed.

(** C2, amended.  The association tables of the optimization trajectory
    and of the torsion-drive optimization history carry exactly their two
    foreign-key columns and no sequence-position column: no ordering key is
    stored with a link. *)
Theorem ordered_associations_are_plain_join_tables :
  Forall (λ t, ∃ pc cc, columns t = [pc; cc]
                        ∧ is_Some (c_foreign_key pc)
                        ∧ is_Some (c_foreign_key cc))
         ordered_associations
  ∧ Forall (λ t, ¬ carries_position_column t) ordered_associations.
Proof.
  split.
  - repeat constructor; eexists _, _; (split; [reflexivity|]); split; by eexists.
  - repeat constructor; intros (c & Hc & Hfk); simpl in Hc;
      rewrite !elem_of_cons, elem_of_nil in Hc;
      destruct Hc as [->|[->|[]]]; discriminate Hfk.
Qed.

End ordered_association_claims.

(** ** Single results *)

Section single_result_claims.
Import sql models orm.

(** A database with one molecule and one keyword set. *)
Definition example_inputs : Database :=
  let db := empty_database in
  let db := set_rows db "molecule" [ {[ "id" := Int 1 ]} ] in
  set_rows db "keywords" [ {[ "id" := Int 1; "hash_index" := Str "k1" ]} ].

Definition psi4_hf : Row :=
  {[ "program" := Str "psi4"; "driver" := Str "energy"; "method" := Str "hf";
     "basis" := Str "sto-3g"; "molecule" := Int 1; "keywords" := Int 1 ]}.

(** C5 (the code falls short of the claim).  The [result] table accepts a
    second row with the same (program, driver, method, basis, molecule,
    keywords): storing the same single result twice succeeds both times
    and leaves two rows with different ids and the same key. *)
Theorem result_dedup_key_is_not_enforced :
  match add 0 ResultORM "result" psi4_hf example_inputs with
  | Ok (id1, db1) =>
      match add 1 ResultORM "result" psi4_hf db1 with
      | Ok (id2, db2) =>
          id1 = Int 1 ∧ id2 = Int 2
          ∧ match rows db2 "base_result", rows db2 "result" with
            | [base1; base2], [res1; res2] =>
                get res1 "id" = Int 1 ∧ get res2 "id" = Int 2
                ∧ dedup_key base1 res1 = dedup_key base2 res2
            | _, _ => False
            end
      | Raise _ => False
      end
  | Raise _ => False
  end.
Proof. vm_compute. repeat split. Qed.

End single_result_claims.

(** ** The task queue *)

Section task_queue_claims.
Import sql models orm.

Lemma get_fill now next t r c :
  NoDup (map c_name (columns t)) → c ∈ columns t →
  get (fill now next t r) (c_name c) = stored_value now next c r.
Proof.
  intros Hnd Hc. unfold get, fill.
  erewrite elem_of_list_to_map_1; [done| |].
  - by rewrite <- list_fmap_compose.
  - apply list_elem_of_fmap. by exists c.
Qed.

(** The columns of [task_queue] that carry a constraint. *)
Definition task_id_column : Column := pk (column "id" Integer).
Definition task_base_result_column : Column :=
  uniq (references "base_result.id" None (column "base_result" Integer)).

Lemma task_queue_names : NoDup (map c_name (columns TaskQueueORM)).
Proof. apply (bool_decide_unpack _). by vm_compute. Qed.

Lemma task_queue_not_null (r' : Row) :
  get r' "id" ≠ NULL →
  Forall (λ c, not_null_ok r' c = true) (columns TaskQueueORM).
Proof.
  intros Hid. repeat constructor; try reflexivity.
  unfold not_null_ok. simpl. by rewrite bool_decide_true.
Qed.

Lemma task_queue_unique (existing : list Row) (r' : Row) :
  Forall (λ c, unique_ok existing r' c = true) (columns TaskQueueORM)
  ↔ unique_ok existing r' task_id_column = true
    ∧ unique_ok existing r' task_base_result_column = true.
Proof.
  split.
  - intros Hall. rewrite Forall_forall in Hall.
    split; apply Hall; simpl; rewrite !elem_of_cons; tauto.
  - intros [Hid Hbr]. repeat constructor; try reflexivity; assumption.
Qed.

Lemma task_queue_foreign_keys (db : Database) (r' : Row) :
  Forall (λ c, foreign_key_ok db r' c = true) (columns TaskQueueORM)
  ↔ foreign_key_ok db r' task_base_result_column = true.
Proof.
  split.
  - intros Hall. rewrite Forall_forall in Hall.
    apply Hall; simpl; rewrite !elem_of_cons; tauto.
  - intros Hbr. repeat constructor; try reflexivity; assumption.
Qed.

(** The row that [enqueue] hands to the INSERT, and the row it stores. *)
Definition new_task (b : Z) (priority tag spec : value) : Row :=
  {[ "base_result" := Int b; "priority" := priority; "tag" := tag; "spec" := spec ]}.

Lemma stored_task_id now next b priority tag spec :
  get (fill now next TaskQueueORM (new_task b priority tag spec)) "id" = Int next.
Proof.
  rewrite (get_fill now next TaskQueueORM _ task_id_column);
    [done | apply task_queue_names | simpl; rewrite !elem_of_cons; tauto].
Qed.

Lemma stored_task_base_result now next b priority tag spec :
  get (fill now next TaskQueueORM (new_task b priority tag spec)) "base_result"
  = Int b.
Proof.
  rewrite (get_fill now next TaskQueueORM _ task_base_result_column);
    [done | apply task_queue_names | simpl; rewrite !elem_of_cons; tauto].
Qed.

Lemma unique_ok_base_result (existing : list Row) (r' : Row) (b : Z) :
  get r' "base_result" = Int b →
  unique_ok existing r' task_base_result_column = true
  ↔ ∀ task, task ∈ existing → get task "base_result" ≠ Int b.
Proof.
  intros Hb. unfold unique_ok. simpl. rewrite Hb.
  rewrite bool_decide_false by done. simpl.
  rewrite forallb_forall. split.
  - intros Hall task Hin. apply list_elem_of_In in Hin.
    apply Hall in Hin. by apply bool_decide_eq_true in Hin.
  - intros Hall task Hin. apply bool_decide_eq_true, Hall.
    by apply list_elem_of_In.
Qed.

Lemma unique_ok_task_id (existing : list Row) (r' : Row) (i : Z) :
  get r' "id" = Int i →
  unique_ok existing r' task_id_column = true
  ↔ ∀ task, task ∈ existing → get task "id" ≠ Int i.
Proof.
  intros Hb. unfold unique_ok. simpl. rewrite Hb.
  rewrite bool_decide_false by done. simpl.
  rewrite forallb_forall. split.
  - intros Hall task Hin. apply list_elem_of_In in Hin.
    apply Hall in Hin. by apply bool_decide_eq_true in Hin.
  - intros Hall task Hin. apply bool_decide_eq_true, Hall.
    by apply list_elem_of_In.
Qed.

Lemma foreign_key_ok_base_result (db : Database) (r' : Row) (b : Z) :
  get r' "base_result" = Int b →
  foreign_key_ok db r' task_base_result_column = true
  ↔ ∃ base, base ∈ rows db "base_result" ∧ get base "id" = Int b.
Proof.
  intros Hb. unfold foreign_key_ok. simpl. rewrite Hb.
  rewrite bool_decide_false by done. simpl.
  rewrite existsb_exists. split.
  - intros (base & Hin & Hid). exists base.
    split; [by apply list_elem_of_In | by apply bool_decide_eq_true in Hid].
  - intros (base & Hin & Hid). exists base.
    split; [by apply list_elem_of_In | by apply bool_decide_eq_true].
Qed.

(** The tasks that reference a base result. *)
Definition tasks_of (db : Database) (b : Z) : list Row :=
  List.filter (λ task, bool_decide (get task "base_result" = Int b))
              (rows db "task_queue").

Lemma enqueue_Ok now b priority tag spec db id db' :
  enqueue now b priority tag spec db = Ok (id, db') ↔
    let task := fill now (nextval db "task_queue") TaskQueueORM
                  (new_task b priority tag spec) in
    id = Int (nextval db "task_queue")
    ∧ db' = inserted TaskQueueORM (new_task b priority tag spec) task db
    ∧ (∀ t, t ∈ rows db "task_queue" → get t "id" ≠ Int (nextval db "task_queue"))
    ∧ (∀ t, t ∈ rows db "task_queue" → get t "base_result" ≠ Int b)
    ∧ (∃ base, base ∈ rows db "base_result" ∧ get base "id" = Int b).
Proof.
  unfold enqueue. fold (new_task b priority tag spec).
  set (task := fill now (nextval db "task_queue") TaskQueueORM
                 (new_task b priority tag spec)).
  cbn zeta. 
  rewrite <- (unique_ok_task_id (rows db "task_queue") task) by apply stored_task_id.
  rewrite <- (unique_ok_base_result (rows db "task_queue") task) by apply stored_task_base_result.
  rewrite <- (foreign_key_ok_base_result db task) by apply stored_task_base_result.
  rewrite <- task_queue_foreign_keys.
  split.
  - destruct (insert now TaskQueueORM _ db) as [[r1 db1]|e] eqn:Hins; [|done].
    simpl. intros [= <- <-].
    apply insert_Ok in Hins as (-> & -> & _ & Huniq & Hfk).
    change (tablename TaskQueueORM) with "task_queue" in *. fold task in Huniq, Hfk |- *.
    apply task_queue_unique in Huniq as [? ?].
    split; [apply stored_task_id|]. done.
  - intros (-> & -> & Hid & Hbr & Hfk).
    assert (insert now TaskQueueORM (new_task b priority tag spec) db
            = Ok (task, inserted TaskQueueORM (new_task b priority tag spec) task db))
      as ->.
    { apply insert_Ok. change (tablename TaskQueueORM) with "task_queue".
      fold task. split; [done|]. split; [done|]. split; [|split; [|done]].
      - apply task_queue_not_null. unfold task. by rewrite stored_task_id.
      - by apply task_queue_unique. }
    simpl. unfold task. by rewrite stored_task_id.
Qed.


Lemma tasks_of_nil db b :
  tasks_of db b = [] ↔ ∀ t, t ∈ rows db "task_queue" → get t "base_result" ≠ Int b.
Proof.
  unfold tasks_of. induction (rows db "task_queue") as [|t l IH]; simpl.
  - split; [|done]. by intros _ t ?%not_elem_of_nil.
  - destruct (bool_decide_reflect (get t "base_result" = Int b)) as [Heq|Hne].
    + split; [done|]. intros Hall. destruct (Hall t); [left|done].
    + rewrite IH. split.
      * intros Hall t' [->|Hin]%elem_of_cons; [done|by apply Hall].
      * intros Hall t' Hin. apply Hall. by right.
Qed.

Lemma enqueue_conflict now b priority tag spec db task :
  task ∈ rows db "task_queue" → get task "base_result" = Int b →
  ∃ col, enqueue now b priority tag spec db
         = Raise (IntegrityError UniqueViolation "task_queue" col).
Proof.
  intros Hin Hb. unfold enqueue, insert.
  fold (new_task b priority tag spec).
  change (tablename TaskQueueORM) with "task_queue".
  set (r' := fill now (nextval db "task_queue") TaskQueueORM
               (new_task b priority tag spec)).
  assert (check NotNullViolation TaskQueueORM (not_null_ok r') = Ok ()) as ->.
  { apply check_Ok, task_queue_not_null. unfold r'. by rewrite stored_task_id. }
  cbn [mbind Result_bind].
  destruct (check_cases UniqueViolation TaskQueueORM
              (unique_ok (rows db "task_queue") r')) as [Hok|(c & _ & _ & ->)].
  - exfalso. apply check_Ok, task_queue_unique in Hok as [_ Hbr].
    rewrite (unique_ok_base_result _ _ b) in Hbr by apply stored_task_base_result.
    by apply (Hbr task).
  - by exists (c_name c).
Qed.

Lemma tasks_of_inserted (r task : Row) db b b' :
  get task "base_result" = Int b →
  tasks_of (inserted TaskQueueORM r task db) b'
  = tasks_of db b' ++ (if bool_decide (b = b') then [task] else []).
Proof.
  intros Hb. unfold tasks_of. rewrite rows_inserted.
  change (String.eqb "task_queue" (tablename TaskQueueORM)) with true.
  cbn iota. change (tablename TaskQueueORM) with "task_queue".
  rewrite List.filter_app. f_equal. cbn [List.filter].
  destruct (bool_decide_reflect (get task "base_result" = Int b')) as [Heq|Hne];
    destruct (bool_decide_reflect (b = b')) as [Heq'|Hne']; try done.
  - congruence.
  - subst b'. done.
Qed.

(** C4, as stated, fails on its last part: the unique constraint on
    [task_queue.base_result] covers every row, so a task that has resolved
    and whose row is still in the queue keeps a new task for the same base
    result out.  Base result 1 is stored and a task is enqueued for it; the
    task goes to [complete], so that no live task is left; the next enqueue
    on base result 1 fails with the unique violation. *)
Lemma enqueue_after_resolution_conflicts :
  match insert 0 BaseResultORM {[ "result_type" := Str "result" ]} empty_database with
  | Ok (_, db1) =>
      match enqueue 1 1 (Str "NORMAL") NULL NULL db1 with
      | Ok (task_id, db2) =>
          let db3 := update_where TaskQueueORM (has_id 1)
                       (λ task, <["status" := Str "complete"]> task) db2 in
          task_id = Int 1
          ∧ forallb (λ task, negb (live task)) (tasks_of db3 1) = true
          ∧ enqueue 2 1 (Str "NORMAL") NULL NULL db3
            = Raise (IntegrityError UniqueViolation "task_queue" "base_result")
      | Raise _ => False
      end
  | Raise _ => False
  end.
Proof. vm_compute. repeat split. Qed.

(** C4, amended.  At most one row of the task queue references a base
    result at a time: an enqueue on a base result that already has a task
    row, live or resolved, fails with the unique violation (the store's
    Conflict); an enqueue that succeeds keeps the tasks of every base result
    at one at most; and once the task row of a base result has been deleted
    from the queue, a new enqueue on that base result succeeds. *)
Theorem enqueue_one_task_per_base_result :
  (∀ now b priority tag spec db task,
     task ∈ rows db "task_queue" → get task "base_result" = Int b →
     ∃ col, enqueue now b priority tag spec db
            = Raise (IntegrityError UniqueViolation "task_queue" col))
  ∧ (∀ now b priority tag spec db id db',
       enqueue now b priority tag spec db = Ok (id, db') →
       (∀ b', (length (tasks_of db b') ≤ 1)%nat) →
       ∀ b', (length (tasks_of db' b') ≤ 1)%nat)
  ∧ (∀ now b priority tag spec db,
       (∃ base, base ∈ rows db "base_result" ∧ get base "id" = Int b) →
       (∀ t, t ∈ rows db "task_queue" → get t "id" ≠ Int (nextval db "task_queue")) →
       ∃ db1,
         delete_where metadata TaskQueueORM (holds (Eq "base_result" (Int b))) db
         = Ok db1
         ∧ tasks_of db1 b = []
         ∧ ∃ id db2, enqueue now b priority tag spec db1 = Ok (id, db2)).
Proof.
  split; [|split].
  - intros. by eapply enqueue_conflict.
  - intros now b priority tag spec db id db' Henq Hone b'.
    apply enqueue_Ok in Henq as (_ & -> & _ & Hfree & _).
    rewrite (tasks_of_inserted _ _ _ b) by apply stored_task_base_result.
    destruct (bool_decide_reflect (b = b')) as [<-|Hne].
    + apply tasks_of_nil in Hfree. rewrite Hfree. simpl. lia.
    + rewrite app_nil_r. apply Hone.
  - intros now b priority tag spec db Hbase Hfresh.
    unfold delete_where.
    rewrite delete_rows_leaf by reflexivity.
    change (tablename TaskQueueORM) with "task_queue".
    eexists. split; [reflexivity|].
    set (db1 := set_rows db "task_queue" _).
    assert (∀ t, t ∈ rows db1 "task_queue" →
                 t ∈ rows db "task_queue" ∧ get t "base_result" ≠ Int b) as Hkept.
    { intros t. unfold db1. rewrite rows_set_rows_eq.
      rewrite list_elem_of_In, filter_In, <- list_elem_of_In.
      intros [Hin Hsel]. split; [done|]. intros Hb.
      simpl in Hsel. rewrite Hb in Hsel.
      rewrite !bool_decide_true in Hsel by done. done. }
    split.
    + apply tasks_of_nil. intros t Hin. by apply Hkept.
    + eexists _, _. apply enqueue_Ok. cbn zeta.
      split; [reflexivity|]. split; [reflexivity|].
      split; [|split].
      * intros t Hin. apply Hkept in Hin as [Hin _]. by apply Hfresh.
      * intros t Hin. by apply Hkept.
      * destruct Hbase as (base & Hin & Hid). exists base. split; [|done].
        unfold db1. by rewrite rows_set_rows_ne.
Qed.

(** The queue of the counterexample: base result 1 with its resolved task. *)
Definition resolved_task_queue : Database :=
  let db := set_rows empty_database "base_result"
              [ {[ "id" := Int 1; "status" := Str "complete" ]} ] in
  let db := set_rows db "task_queue"
              [ {[ "id" := Int 1; "base_result" := Int 1;
                   "status" := Str "complete" ]} ] in
  bump db "task_queue".

Lemma enqueue_one_task_per_base_result_witness :
  (∃ col, enqueue 2 1 (Str "NORMAL") NULL NULL resolved_task_queue
          = Raise (IntegrityError UniqueViolation "task_queue" col))
  ∧ ∃ db1,
      delete_where metadata TaskQueueORM (holds (Eq "base_result" (Int 1)))
        resolved_task_queue = Ok db1
      ∧ tasks_of db1 1 = []
      ∧ ∃ id db2, enqueue 2 1 (Str "NORMAL") NULL NULL db1 = Ok (id, db2).
Proof.
  destruct enqueue_one_task_per_base_result as (Hconflict & _ & Hagain).
  split.
  - apply (Hconflict 2 1 (Str "NORMAL") NULL NULL resolved_task_queue
             {[ "id" := Int 1; "base_result" := Int 1; "status" := Str "complete" ]}).
    + simpl. left.
    + reflexivity.
  - apply (Hagain 2 1 (Str "NORMAL") NULL NULL resolved_task_queue).
    + exists {[ "id" := Int 1; "status" := Str "complete" ]}. split; [|reflexivity].
      simpl. left.
    + intros t Hin. simpl in Hin. apply list_elem_of_singleton in Hin as ->.
      by vm_compute.
Defined.

End task_queue_claims.

(** ** Deleting a base result *)

Section delete_claims.
Import sql models orm.

(** One step of the cascade of [delete_rows]: what a foreign key that
    points at the rows being deleted does to the database. *)
Definition cascade_step (fuel : nat) (md : list Table) (victims : list Row)
    (acc : Result Exception Database) (ref : Table * Column * ForeignKey)
    : Result Exception Database :=
  let '(t', c', fk) := ref in
  db_acc ← acc;
  let keys := map (λ r, get r (fk_column fk)) victims in
  if is_cascade (fk_ondelete fk)
  then delete_rows fuel md t' (points_at keys c') db_acc
  else if existsb (points_at keys c') (rows db_acc (tablename t'))
       then Raise (IntegrityError ForeignKeyViolation (tablename t') (c_name c'))
       else Ok db_acc.

Lemma delete_rows_S fuel md t sel db :
  delete_rows (S fuel) md t sel db
  = foldl (cascade_step fuel md (List.filter sel (rows db (tablename t))))
      (Ok (set_rows db (tablename t)
             (List.filter (λ r, negb (sel r)) (rows db (tablename t)))))
      (referencing md (tablename t)).
Proof. reflexivity. Qed.

(** A cascade into a table that nothing references. *)
Lemma cascade_step_leaf fuel md victims db t' c' fk :
  is_cascade (fk_ondelete fk) = true →
  referencing md (tablename t') = [] →
  cascade_step (S fuel) md victims (Ok db) (t', c', fk)
  = Ok (set_rows db (tablename t')
          (List.filter
             (λ r, negb (points_at (map (λ r, get r (fk_column fk)) victims) c' r))
             (rows db (tablename t')))).
Proof.
  intros Hc Hleaf. unfold cascade_step. cbn [mbind Result_bind].
  rewrite Hc. by apply delete_rows_leaf.
Qed.

(** A foreign key without [ondelete]: the statement fails when a row still
    points at a deleted row, and changes nothing otherwise. *)
Lemma cascade_step_restrict fuel md victims db t' c' fk :
  is_cascade (fk_ondelete fk) = false →
  cascade_step fuel md victims (Ok db) (t', c', fk)
  = if existsb (points_at (map (λ r, get r (fk_column fk)) victims) c')
               (rows db (tablename t'))
    then Raise (IntegrityError ForeignKeyViolation (tablename t') (c_name c'))
    else Ok db.
Proof. intros Hc. unfold cascade_step. cbn [mbind Result_bind]. by rewrite Hc. Qed.

(** The rows with a given id. *)
Definition id_is (v : value) (r : Row) : bool := bool_decide (get r "id" = v).

Lemma points_at_ids (v : value) (victims : list Row) (c : Column) (r : Row) :
  v ≠ NULL → victims ≠ [] → (∀ x, x ∈ victims → get x "id" = v) →
  points_at (map (λ x, get x "id") victims) c r
  = bool_decide (get r (c_name c) = v).
Proof.
  intros Hv Hne Hall. unfold points_at.
  destruct (bool_decide_reflect (get r (c_name c) = v)) as [Heq|Hdiff].
  - apply andb_true_iff. split; apply bool_decide_eq_true; rewrite Heq; [done|].
    destruct victims as [|x xs]; [done|]. simpl.
    rewrite (Hall x) by left. left.
  - apply andb_false_iff. right. apply bool_decide_eq_false.
    intros (x & Hx & Hin)%list_elem_of_fmap. apply Hdiff. rewrite Hx. by apply Hall.
Qed.

Lemma points_at_nil (c : Column) (r : Row) : points_at [] c r = false.
Proof.
  unfold points_at. apply andb_false_iff. right.
  apply bool_decide_eq_false. apply not_elem_of_nil.
Qed.

(** What a cascade removes from the table at the other end of a foreign
    key. *)
Definition sweep (victims : list Row) (db : Database)
    (ref : Table * Column * ForeignKey) : Database :=
  set_rows db (tablename ref.1.1)
    (List.filter
       (λ r, negb (points_at (map (λ x, get x (fk_column ref.2)) victims) ref.1.2 r))
       (rows db (tablename ref.1.1))).

(** Deleting from a table all of whose referencing foreign keys cascade
    into tables that nothing references. *)
Lemma foldl_cascade_leaves fuel md victims refs db :
  Forall (λ ref : Table * Column * ForeignKey,
            is_cascade (fk_ondelete ref.2) = true
            ∧ referencing md (tablename ref.1.1) = []) refs →
  foldl (cascade_step (S fuel) md victims) (Ok db) refs
  = Ok (foldl (sweep victims) db refs).
Proof.
  revert db. induction refs as [|[[t' c'] fk] refs IH]; intros db Hall; [done|].
  apply Forall_cons in Hall as [[Hc Hleaf] Hall]. cbn [foldl].
  rewrite cascade_step_leaf by done. by rewrite IH.
Qed.

Lemma delete_rows_cascade_leaves fuel md t sel db :
  Forall (λ ref : Table * Column * ForeignKey,
            is_cascade (fk_ondelete ref.2) = true
            ∧ referencing md (tablename ref.1.1) = [])
         (referencing md (tablename t)) →
  delete_rows (S (S fuel)) md t sel db
  = Ok (foldl (sweep (List.filter sel (rows db (tablename t))))
          (set_rows db (tablename t)
             (List.filter (λ r, negb (sel r)) (rows db (tablename t))))
          (referencing md (tablename t))).
Proof. intros Hall. rewrite delete_rows_S. by apply foldl_cascade_leaves. Qed.

(** The foreign keys of the source that point at each table. *)
Definition fk_to (table : string) (ondelete : option string) : ForeignKey :=
  {| fk_table := table; fk_column := "id"; fk_ondelete := ondelete |}.

Lemma referencing_base_result :
  referencing metadata "base_result"
  = [ (ResultORM,
       pk (references "base_result.id" (Some "CASCADE") (column "id" Integer)),
       fk_to "base_result" (Some "CASCADE"));
      (OptimizationProcedureORM,
       pk (references "base_result.id" (Some "cascade") (column "id" Integer)),
       fk_to "base_result" (Some "cascade"));
      (TorsionDriveProcedureORM,
       pk (references "base_result.id" (Some "cascade") (column "id" Integer)),
       fk_to "base_result" (Some "cascade"));
      (TaskQueueORM,
       uniq (references "base_result.id" None (column "base_result" Integer)),
       fk_to "base_result" None);
      (ServiceQueueORM,
       references "base_result.id" None (column "procedure_id" Integer),
       fk_to "base_result" None) ].
Proof. reflexivity. Qed.

Lemma referencing_result :
  referencing metadata "result"
  = [ (opt_result_association,
       references "result.id" (Some "CASCADE") (column "result_id" Integer),
       fk_to "result" (Some "CASCADE")) ].
Proof. reflexivity. Qed.

Lemma referencing_optimization_procedure :
  referencing metadata "optimization_procedure"
  = [ (opt_result_association,
       references "optimization_procedure.id" (Some "CASCADE") (column "opt_id" Integer),
       fk_to "optimization_procedure" (Some "CASCADE"));
      (torj_opt_association,
       references "optimization_procedure.id" (Some "CASCADE") (column "opt_id" Integer),
       fk_to "optimization_procedure" (Some "CASCADE")) ].
Proof. reflexivity. Qed.

Lemma referencing_torsiondrive_procedure :
  referencing metadata "torsiondrive_procedure"
  = [ (torj_opt_association,
       references "torsiondrive_procedure.id" (Some "CASCADE") (column "torj_id" Integer),
       fk_to "torsiondrive_procedure" (Some "CASCADE"));
      (torj_init_mol_association,
       references "torsiondrive_procedure.id" (Some "CASCADE") (column "torj_id" Integer),
       fk_to "torsiondrive_procedure" (Some "CASCADE")) ].
Proof. reflexivity. Qed.

Lemma referencing_logs :
  referencing metadata "logs"
  = [ (BaseResultORM, references "logs.id" None (column "stdout" Integer),
       fk_to "logs" None);
      (BaseResultORM, references "logs.id" None (column "stderr" Integer),
       fk_to "logs" None) ].
Proof. reflexivity. Qed.

Lemma referencing_error :
  referencing metadata "error"
  = [ (BaseResultORM, references "error.id" None (column "error" Integer),
       fk_to "error" None) ].
Proof. reflexivity. Qed.


Local Ltac rows_simpl :=
  repeat first [ rewrite rows_set_rows_eq | rewrite rows_set_rows_ne by done ].

Definition without (f : Row → bool) (l : list Row) : list Row :=
  List.filter (λ r, negb (f r)) l.

Definition ids_of (sel : Row → bool) (l : list Row) : list value :=
  map (λ x, get x "id") (List.filter sel l).

Definition result_id_column : Column :=
  references "result.id" (Some "CASCADE") (column "result_id" Integer).
Definition opt_id_column : Column :=
  references "optimization_procedure.id" (Some "CASCADE") (column "opt_id" Integer).
Definition torj_id_column : Column :=
  references "torsiondrive_procedure.id" (Some "CASCADE") (column "torj_id" Integer).

Lemma delete_result_rows fuel sel db :
  delete_rows (S (S fuel)) metadata ResultORM sel db
  = Ok (set_rows
          (set_rows db "result" (without sel (rows db "result")))
          "opt_result_association"
          (without (points_at (ids_of sel (rows db "result")) result_id_column)
                   (rows db "opt_result_association"))).
Proof.
  rewrite delete_rows_cascade_leaves;
    change (tablename ResultORM) with "result"; rewrite referencing_result.
  - cbn [foldl]. unfold sweep. cbn [fst snd fk_column fk_to].
    change (tablename opt_result_association) with "opt_result_association".
    by rows_simpl.
  - repeat constructor.
Qed.

Lemma delete_optimization_rows fuel sel db :
  delete_rows (S (S fuel)) metadata OptimizationProcedureORM sel db
  = Ok (set_rows
          (set_rows
             (set_rows db "optimization_procedure"
                (without sel (rows db "optimization_procedure")))
             "opt_result_association"
             (without (points_at (ids_of sel (rows db "optimization_procedure"))
                                 opt_id_column)
                      (rows db "opt_result_association")))
          "torj_opt_association"
          (without (points_at (ids_of sel (rows db "optimization_procedure"))
                              opt_id_column)
                   (rows db "torj_opt_association"))).
Proof.
  rewrite delete_rows_cascade_leaves;
    change (tablename OptimizationProcedureORM) with "optimization_procedure";
    rewrite referencing_optimization_procedure.
  - cbn [foldl]. unfold sweep. cbn [fst snd fk_column fk_to].
    change (tablename opt_result_association) with "opt_result_association".
    change (tablename torj_opt_association) with "torj_opt_association".
    by rows_simpl.
  - repeat constructor.
Qed.

Lemma delete_torsiondrive_rows fuel sel db :
  delete_rows (S (S fuel)) metadata TorsionDriveProcedureORM sel db
  = Ok (set_rows
          (set_rows
             (set_rows db "torsiondrive_procedure"
                (without sel (rows db "torsiondrive_procedure")))
             "torj_opt_association"
             (without (points_at (ids_of sel (rows db "torsiondrive_procedure"))
                                 torj_id_column)
                      (rows db "torj_opt_association")))
          "torj_init_mol_association"
          (without (points_at (ids_of sel (rows db "torsiondrive_procedure"))
                              torj_id_column)
                   (rows db "torj_init_mol_association"))).
Proof.
  rewrite delete_rows_cascade_leaves;
    change (tablename TorsionDriveProcedureORM) with "torsiondrive_procedure";
    rewrite referencing_torsiondrive_procedure.
  - cbn [foldl]. unfold sweep. cbn [fst snd fk_column fk_to].
    change (tablename torj_opt_association) with "torj_opt_association".
    change (tablename torj_init_mol_association) with "torj_init_mol_association".
    by rows_simpl.
  - repeat constructor.
Qed.

(** Deleting rows of [logs] or [error]: nothing cascades, and the rows of
    [base_result] that still point at a deleted blob make the statement
    fail. *)
Lemma delete_logs_rows fuel sel db :
  delete_rows (S fuel) metadata LogsORM sel db
  = let keys := ids_of sel (rows db "logs") in
    if existsb (points_at keys (references "logs.id" None (column "stdout" Integer)))
               (rows db "base_result")
    then Raise (IntegrityError ForeignKeyViolation "base_result" "stdout")
    else if existsb (points_at keys (references "logs.id" None (column "stderr" Integer)))
                    (rows db "base_result")
    then Raise (IntegrityError ForeignKeyViolation "base_result" "stderr")
    else Ok (set_rows db "logs" (without sel (rows db "logs"))).
Proof.
  rewrite delete_rows_S. change (tablename LogsORM) with "logs".
  rewrite referencing_logs. cbn [foldl].
  rewrite cascade_step_restrict by reflexivity.
  change (tablename BaseResultORM) with "base_result". cbn [fk_column fk_to].
  rows_simpl. cbn zeta. fold (ids_of sel (rows db "logs")).
  destruct (existsb _ _); [done|].
  rewrite cascade_step_restrict by reflexivity.
  change (tablename BaseResultORM) with "base_result". cbn [fk_column fk_to].
  rows_simpl. fold (ids_of sel (rows db "logs")).
  by destruct (existsb _ _).
Qed.

Lemma delete_error_rows fuel sel db :
  delete_rows (S fuel) metadata ErrorORM sel db
  = let keys := ids_of sel (rows db "error") in
    if existsb (points_at keys (references "error.id" None (column "error" Integer)))
               (rows db "base_result")
    then Raise (IntegrityError ForeignKeyViolation "base_result" "error")
    else Ok (set_rows db "error" (without sel (rows db "error"))).
Proof.
  rewrite delete_rows_S. change (tablename ErrorORM) with "error".
  rewrite referencing_error. cbn [foldl].
  rewrite cascade_step_restrict by reflexivity.
  change (tablename BaseResultORM) with "base_result". cbn [fk_column fk_to].
  rows_simpl. cbn zeta. fold (ids_of sel (rows db "error")).
  by destruct (existsb _ _).
Qed.


Definition result_pk : Column :=
  pk (references "base_result.id" (Some "CASCADE") (column "id" Integer)).
Definition procedure_pk : Column :=
  pk (references "base_result.id" (Some "cascade") (column "id" Integer)).

(** The tables a DELETE on [base_result] can reach. *)
Definition below_base_result : list string :=
  [ "base_result"; "result"; "optimization_procedure"; "torsiondrive_procedure";
    "opt_result_association"; "torj_opt_association"; "torj_init_mol_association" ].

(** [DELETE FROM base_result WHERE sel]: the rows of the three classes with
    the same id go with the rows of [base_result], and with them the
    association rows that point at them; a task or a service that still
    references a deleted row makes the statement fail. *)
Lemma delete_base_result_rows sel db :
  let K := ids_of sel (rows db "base_result") in
  let KR := ids_of (points_at K result_pk) (rows db "result") in
  let KO := ids_of (points_at K procedure_pk) (rows db "optimization_procedure") in
  let KT := ids_of (points_at K procedure_pk) (rows db "torsiondrive_procedure") in
  existsb (points_at K task_base_result_column) (rows db "task_queue") = false →
  existsb (points_at K (references "base_result.id" None
                          (column "procedure_id" Integer)))
          (rows db "service_queue") = false →
  ∃ db',
    delete_where metadata BaseResultORM sel db = Ok db'
    ∧ rows db' "base_result" = without sel (rows db "base_result")
    ∧ rows db' "result" = without (points_at K result_pk) (rows db "result")
    ∧ rows db' "optimization_procedure"
      = without (points_at K procedure_pk) (rows db "optimization_procedure")
    ∧ rows db' "torsiondrive_procedure"
      = without (points_at K procedure_pk) (rows db "torsiondrive_procedure")
    ∧ rows db' "opt_result_association"
      = without (points_at KO opt_id_column)
          (without (points_at KR result_id_column)
             (rows db "opt_result_association"))
    ∧ rows db' "torj_opt_association"
      = without (points_at KT torj_id_column)
          (without (points_at KO opt_id_column) (rows db "torj_opt_association"))
    ∧ rows db' "torj_init_mol_association"
      = without (points_at KT torj_id_column) (rows db "torj_init_mol_association")
    ∧ ∀ name, name ∉ below_base_result → rows db' name = rows db name.
Proof.
  intros K KR KO KT Htask Hservice.
  unfold delete_where. change (length metadata) with 17%nat.
  rewrite delete_rows_S.
  change (tablename BaseResultORM) with "base_result".
  rewrite referencing_base_result. cbn [foldl].
  fold (without sel (rows db "base_result")).
  unfold cascade_step at 5. cbn [mbind Result_bind fk_column fk_to].
  change (is_cascade (fk_ondelete (fk_to "base_result" (Some "CASCADE")))) with true.
  cbn iota. fold (ids_of sel (rows db "base_result")). fold K.
  rewrite delete_result_rows. rows_simpl.
  unfold cascade_step at 4. cbn [mbind Result_bind fk_column fk_to].
  change (is_cascade (fk_ondelete (fk_to "base_result" (Some "cascade")))) with true.
  cbn iota. fold (ids_of sel (rows db "base_result")). fold K.
  rewrite delete_optimization_rows. rows_simpl.
  unfold cascade_step at 3. cbn [mbind Result_bind fk_column fk_to].
  change (is_cascade (fk_ondelete (fk_to "base_result" (Some "cascade")))) with true.
  cbn iota. fold (ids_of sel (rows db "base_result")). fold K.
  rewrite delete_torsiondrive_rows. rows_simpl.
  rewrite cascade_step_restrict by reflexivity.
  change (tablename TaskQueueORM) with "task_queue". cbn [fk_column fk_to].
  rows_simpl. fold (ids_of sel (rows db "base_result")). fold K.
  fold result_pk procedure_pk.
  change (uniq (references "base_result.id" None (column "base_result" Integer)))
    with task_base_result_column.
  rewrite Htask.
  rewrite cascade_step_restrict by reflexivity.
  change (tablename ServiceQueueORM) with "service_queue". cbn [fk_column fk_to].
  rows_simpl. fold (ids_of sel (rows db "base_result")). fold K.
  rewrite Hservice.
  eexists. split; [reflexivity|].
  repeat (split; [by rows_simpl|]).
  intros name Hname. unfold below_base_result in Hname.
  rewrite !not_elem_of_cons in Hname.
  destruct Hname as (? & ? & ? & ? & ? & ? & ? & _).
  by rows_simpl.
Qed.


Lemma points_at_ids_of (b : value) (c : Column) (l : list Row) (r : Row) :
  points_at (ids_of (λ x, bool_decide (get x "id" = b)) l) c r = true →
  get r (c_name c) = b.
Proof.
  unfold points_at, ids_of. intros [_ Hin%bool_decide_eq_true]%andb_true_iff.
  apply list_elem_of_fmap in Hin as (x & Hx & Hin).
  apply filter_filter_in in Hin as [_ Hsel]; [|exact (λ _, true)].
  apply bool_decide_eq_true in Hsel. congruence.
Qed.

Lemma existsb_false {A} (f : A → bool) (l : list A) :
  (∀ x, x ∈ l → f x = false) → existsb f l = false.
Proof.
  intros H. apply not_true_is_false. intros (x & Hin & Hx)%existsb_exists.
  apply list_elem_of_In in Hin. rewrite (H x Hin) in Hx. done.
Qed.

(** Every relationship of the source that cascades a delete
    ([stdout_obj], [stderr_obj], [error_obj]) is [lazy='noload']: on a
    loaded instance the cascade finds no object to delete. *)
Lemma nothing_cascades (db : Database) (obj : Row) :
  flat_map (λ rel, if cascades_delete rel then loaded db obj rel else [])
           (relationships_of obj) = [].
Proof.
  unfold relationships_of. rewrite flat_map_app.
  replace (flat_map _ BaseResultORM_relationships) with (@nil (Table * Row))
    by reflexivity.
  repeat case_match; reflexivity.
Qed.

Lemma delete_loaded (obj : Row) (db : Database) :
  delete obj db
  = delete_where metadata BaseResultORM
      (λ r, bool_decide (get r "id" = get obj "id")) db.
Proof.
  unfold delete. rewrite nothing_cascades. cbn [foldl].
  by destruct (delete_where _ _ _ _).
Qed.

Lemma elem_of_without (f : Row → bool) (l : list Row) (r : Row) :
  r ∈ without f l ↔ r ∈ l ∧ f r = false.
Proof.
  unfold without. rewrite list_elem_of_In, filter_In, <- list_elem_of_In.
  by rewrite negb_true_iff.
Qed.

Section cascade_of_one_id.
Context (v : value) (Hv : v ≠ NULL) (base : list Row).
Let K := ids_of (λ x, bool_decide (get x "id" = v)) base.

Lemma points_at_K_inv c r : points_at K c r = true → get r (c_name c) = v.
Proof. apply points_at_ids_of. Qed.

Lemma points_at_K c r :
  (∃ obj, obj ∈ base ∧ get obj "id" = v) →
  get r (c_name c) = v → points_at K c r = true.
Proof.
  intros (obj & Hin & Hid) Hr. unfold points_at. rewrite Hr.
  apply andb_true_iff. split; apply bool_decide_eq_true; [done|].
  unfold K, ids_of. apply list_elem_of_fmap. exists obj. split; [done|].
  apply filter_filter_in; [exact (λ _, true)|]. split; [done|].
  by apply bool_decide_eq_true.
Qed.

Lemma without_K (c : Column) (l : list Row) :
  c_name c = "id" → (∃ obj, obj ∈ base ∧ get obj "id" = v) →
  without (points_at K c) l = without (id_is v) l.
Proof.
  intros Hc Hobj. apply filter_ext. intros r. f_equal. unfold id_is.
  destruct (bool_decide_reflect (get r "id" = v)) as [Heq|Hne].
  - apply points_at_K; [done|]. by rewrite Hc.
  - apply not_true_is_false. intros Hp%points_at_K_inv. by rewrite Hc in Hp.
Qed.

Lemma points_at_below_inv c l c' r :
  c_name c = "id" →
  points_at (ids_of (points_at K c) l) c' r = true → get r (c_name c') = v.
Proof.
  intros Hc [_ Hin%bool_decide_eq_true]%andb_true_iff.
  apply list_elem_of_fmap in Hin as (x & Hx & Hin).
  apply filter_filter_in in Hin as [_ Hsel]; [|exact (λ _, true)].
  apply points_at_K_inv in Hsel. rewrite Hc in Hsel. congruence.
Qed.

Lemma points_at_below c l c' r :
  c_name c = "id" →
  (∃ obj, obj ∈ base ∧ get obj "id" = v) →
  (∃ p, p ∈ l ∧ get p "id" = v) →
  get r (c_name c') = v →
  points_at (ids_of (points_at K c) l) c' r = true.
Proof.
  intros Hc Hobj (p & Hin & Hid) Hr. unfold points_at. rewrite Hr.
  apply andb_true_iff. split; apply bool_decide_eq_true; [done|].
  unfold ids_of. apply list_elem_of_fmap. exists p. split; [done|].
  apply filter_filter_in; [exact (λ _, true)|]. split; [done|].
  apply points_at_K; [done|]. by rewrite Hc.
Qed.

End cascade_of_one_id.


Local Ltac not_below :=
  unfold below_base_result; rewrite !not_elem_of_cons;
  repeat split; try done; apply not_elem_of_nil.

(** No task and no service references the object. *)
Definition unqueued (db : Database) (obj : Row) : Prop :=
  (∀ t, t ∈ rows db "task_queue" → get t "base_result" ≠ get obj "id")
  ∧ (∀ s, s ∈ rows db "service_queue" → get s "procedure_id" ≠ get obj "id").

(** An optimization (id 1) with its stdout (log 5) and its error (7) and
    one result on its trajectory (id 2); a torsion drive (id 9) with the
    optimization in its history; a molecule and a keyword set. *)
Definition example_optimization : Row :=
  {[ "id" := Int 1; "result_type" := Str "optimization_procedure";
     "stdout" := Int 5; "error" := Int 7; "status" := Str "error" ]}.

Definition example_store : Database :=
  let db := empty_database in
  let db := set_rows db "logs" [ {[ "id" := Int 5; "value" := Str "out" ]} ] in
  let db := set_rows db "error" [ {[ "id" := Int 7; "value" := Str "failed" ]} ] in
  let db := set_rows db "molecule" [ {[ "id" := Int 3 ]} ] in
  let db := set_rows db "keywords" [ {[ "id" := Int 4; "hash_index" := Str "k" ]} ] in
  let db := set_rows db "base_result"
              [ example_optimization;
                {[ "id" := Int 2; "result_type" := Str "result";
                   "status" := Str "complete" ]};
                {[ "id" := Int 9; "result_type" := Str "torsiondrive_procedure";
                   "status" := Str "incomplete" ]} ] in
  let db := set_rows db "optimization_procedure"
              [ {[ "id" := Int 1; "initial_molecule" := Int 3 ]} ] in
  let db := set_rows db "result"
              [ {[ "id" := Int 2; "molecule" := Int 3; "keywords" := Int 4 ]} ] in
  let db := set_rows db "torsiondrive_procedure" [ {[ "id" := Int 9 ]} ] in
  let db := set_rows db "opt_result_association"
              [ {[ "opt_id" := Int 1; "result_id" := Int 2 ]} ] in
  set_rows db "torj_opt_association" [ {[ "torj_id" := Int 9; "opt_id" := Int 1 ]} ].

(** C6, as stated, fails on both of its parts.  Deleting the optimization
    of the example, loaded from the store, leaves the rows of its stdout
    and of its error where they are: [stdout_obj], [stderr_obj] and
    [error_obj] are [lazy='noload'], the loaded instance holds no blob
    object and the delete cascade has nothing to follow.  And the delete
    removes more than the links to the optimization's children: the link
    that makes it a child of torsion drive 9 is removed as well
    ([ondelete="CASCADE"] on [torj_opt_association.opt_id]). *)
Lemma delete_leaves_blobs_and_unlinks_parent :
  match delete example_optimization example_store with
  | Ok db' =>
      map (λ r, get r "id") (rows db' "base_result") = [ Int 2; Int 9 ]
      ∧ get example_optimization "stdout" = Int 5
      ∧ map (λ r, get r "id") (rows db' "logs") = [ Int 5 ]
      ∧ get example_optimization "error" = Int 7
      ∧ map (λ r, get r "id") (rows db' "error") = [ Int 7 ]
      ∧ map (λ r, (get r "torj_id", get r "opt_id"))
            (rows example_store "torj_opt_association") = [ (Int 9, Int 1) ]
      ∧ rows db' "torj_opt_association" = []
  | Raise _ => False
  end.
Proof. vm_compute. repeat split. Qed.

(** C6, amended.  Deleting a base result that no task or service
    references succeeds.  Of the result and procedure tables it deletes the
    rows with the object's id only, so that child results and child
    optimizations stay; no association row that names the object is left,
    neither one that links it to a child nor one that makes it the child
    of another procedure, while the association rows that do not name it
    stay; the molecules and the keyword sets are unchanged. *)
Theorem delete_base_result_cascade (db : Database) (obj : Row) :
  obj ∈ rows db "base_result" → get obj "id" ≠ NULL →
  unqueued db obj →
  ∃ db',
    delete obj db = Ok db'
    ∧ (∀ t, t ∈ ["base_result"; "result"; "optimization_procedure";
                  "torsiondrive_procedure"] →
            rows db' t = without (id_is (get obj "id")) (rows db t))
    ∧ ((∃ p, p ∈ rows db "result" ∧ get p "id" = get obj "id") →
       ∀ r, r ∈ rows db' "opt_result_association" →
            get r "result_id" ≠ get obj "id")
    ∧ ((∃ p, p ∈ rows db "optimization_procedure" ∧ get p "id" = get obj "id") →
       (∀ r, r ∈ rows db' "opt_result_association" → get r "opt_id" ≠ get obj "id")
       ∧ (∀ r, r ∈ rows db' "torj_opt_association" → get r "opt_id" ≠ get obj "id"))
    ∧ ((∃ p, p ∈ rows db "torsiondrive_procedure" ∧ get p "id" = get obj "id") →
       (∀ r, r ∈ rows db' "torj_opt_association" → get r "torj_id" ≠ get obj "id")
       ∧ (∀ r, r ∈ rows db' "torj_init_mol_association" →
               get r "torj_id" ≠ get obj "id"))
    ∧ (∀ r, r ∈ rows db "opt_result_association" →
            get r "opt_id" ≠ get obj "id" → get r "result_id" ≠ get obj "id" →
            r ∈ rows db' "opt_result_association")
    ∧ (∀ r, r ∈ rows db "torj_opt_association" →
            get r "torj_id" ≠ get obj "id" → get r "opt_id" ≠ get obj "id" →
            r ∈ rows db' "torj_opt_association")
    ∧ (∀ r, r ∈ rows db "torj_init_mol_association" →
            get r "torj_id" ≠ get obj "id" →
            r ∈ rows db' "torj_init_mol_association")
    ∧ rows db' "molecule" = rows db "molecule"
    ∧ rows db' "keywords" = rows db "keywords".
Proof.
  intros Hobj Hid [Htask Hservice].
  set (v := get obj "id") in *.
  assert (∃ o, o ∈ rows db "base_result" ∧ get o "id" = v) as Hex by eauto.
  rewrite delete_loaded. fold v.
  destruct (delete_base_result_rows (λ r, bool_decide (get r "id" = v)) db)
    as (db1 & -> & Hbase & Hres & Hopt & Htorj & Hora & Htoa & Htima & Hframe).
  { apply existsb_false. intros t Hin. apply not_true_is_false.
    intros Hp%points_at_ids_of. by apply (Htask t Hin). }
  { apply existsb_false. intros t Hin. apply not_true_is_false.
    intros Hp%points_at_ids_of. by apply (Hservice t Hin). }
  exists db1. split; [done|].
  split.
  { intros t Ht. rewrite !elem_of_cons, elem_of_nil in Ht.
    destruct Ht as [->|[->|[->|[->|[]]]]].
    - by rewrite Hbase.
    - rewrite Hres. by apply without_K.
    - rewrite Hopt. by apply without_K.
    - rewrite Htorj. by apply without_K. }
  split.
  { intros Hproc r. rewrite Hora.
    intros [[_ Habs]%elem_of_without _]%elem_of_without Heq.
    rewrite (points_at_below v Hid) in Habs; done. }
  split.
  { intros Hproc. split; intros r.
    - rewrite Hora. intros [_ Habs]%elem_of_without Heq.
      rewrite (points_at_below v Hid) in Habs; done.
    - rewrite Htoa. intros [[_ Habs]%elem_of_without _]%elem_of_without Heq.
      rewrite (points_at_below v Hid) in Habs; done. }
  split.
  { intros Hproc. split; intros r.
    - rewrite Htoa. intros [_ Habs]%elem_of_without Heq.
      rewrite (points_at_below v Hid) in Habs; done.
    - rewrite Htima. intros [_ Habs]%elem_of_without Heq.
      rewrite (points_at_below v Hid) in Habs; done. }
  split.
  { intros r Hin Hp Hc. rewrite Hora.
    apply elem_of_without. split.
    - apply elem_of_without. split; [done|]. apply not_true_is_false.
      by intros ?%points_at_below_inv.
    - apply not_true_is_false. by intros ?%points_at_below_inv. }
  split.
  { intros r Hin Hp Hc. rewrite Htoa.
    apply elem_of_without. split.
    - apply elem_of_without. split; [done|]. apply not_true_is_false.
      by intros ?%points_at_below_inv.
    - apply not_true_is_false. by intros ?%points_at_below_inv. }
  split.
  { intros r Hin Hp. rewrite Htima.
    apply elem_of_without. split; [done|]. apply not_true_is_false.
    by intros ?%points_at_below_inv. }
  split; apply Hframe; not_below.
Qed.

Lemma delete_base_result_cascade_witness :
  ∃ db',
    delete example_optimization example_store = Ok db'
    ∧ map (λ r, get r "id") (rows db' "optimization_procedure") = []
    ∧ map (λ r, get r "id") (rows db' "result") = [ Int 2 ]
    ∧ (∀ r, r ∈ rows db' "opt_result_association" → get r "opt_id" ≠ Int 1)
    ∧ rows db' "molecule" = rows example_store "molecule"
    ∧ rows db' "keywords" = rows example_store "keywords".
Proof.
  destruct (delete_base_result_cascade example_store example_optimization)
    as (db' & Hdel & Htables & _ & Hopt & _ & _ & _ & _ & Hmol & Hkw).
  - simpl. left.
  - by vm_compute.
  - split; intros t Hin; simpl in Hin; by apply not_elem_of_nil in Hin.
  - exists db'. split; [exact Hdel|].
    split; [rewrite (Htables "optimization_procedure") by (right; right; left);
            by vm_compute|].
    split; [rewrite (Htables "result") by (right; left); by vm_compute|].
    split; [|done].
    apply Hopt. eexists. split; [left|]. by vm_compute.
Defined.

End delete_claims.

(** ** The lifecycle of a base result *)

Section lifecycle_facts.
Import sql models orm store.

Lemma status_of_name (r : Row) (s : RecordStatusEnum) :
  get r "status" = Str (status_name s) → status_of r = Some s.
Proof. intros Hs. unfold status_of. rewrite Hs. by destruct s. Qed.

Lemma status_of_inv (r : Row) (s : RecordStatusEnum) :
  status_of r = Some s → get r "status" = Str (status_name s).
Proof.
  unfold status_of. destruct (get r "status") as [| |name| | |]; try done.
  destruct (String.eqb_spec name "incomplete") as [->|_]; [by intros [= <-]|].
  destruct (String.eqb_spec name "complete") as [->|_]; [by intros [= <-]|].
  destruct (String.eqb_spec name "error") as [->|_]; [by intros [= <-]|done].
Qed.

(** What a transition writes into a row. *)
Definition resolved (now : Z) (target : RecordStatusEnum) (r : Row) : Row :=
  <["status" := Str (status_name target)]> (<["modified_on" := Time now]> r).

Lemma get_resolved now target r col :
  get (resolved now target r) col
  = if String.eqb col "status" then Str (status_name target)
    else if String.eqb col "modified_on" then Time now
    else get r col.
Proof.
  unfold resolved, get.
  destruct (String.eqb_spec col "status") as [->|H1].
  { by rewrite lookup_insert_eq. }
  rewrite lookup_insert_ne by done.
  destruct (String.eqb_spec col "modified_on") as [->|H2].
  { by rewrite lookup_insert_eq. }
  by rewrite lookup_insert_ne.
Qed.

Lemma has_id_resolved now target r i :
  has_id i (resolved now target r) = has_id i r.
Proof. unfold has_id. by rewrite get_resolved. Qed.

Lemma transition_Ok now id target db db' :
  transition now id target db = Ok db' ↔
    ∃ r, List.find (has_id id) (rows db "base_result") = Some r
         ∧ status_of r = Some incomplete
         ∧ terminal target = true
         ∧ db' = update_where BaseResultORM (has_id id) (resolved now target) db.
Proof.
  unfold transition. change (tablename BaseResultORM) with "base_result".
  destruct (List.find _ _) as [r|];
    [|split; [intros [=] | intros (? & [=] & _)]].
  destruct (status_of r) as [s|] eqn:Hs;
    [|split; [intros [=] | intros (? & [= <-] & Hs' & _); congruence]].
  split.
  - destruct (legal_edge s target) eqn:Hedge; [|intros [=]]. intros [= <-].
    exists r. destruct s, target; try discriminate Hedge; repeat split; done.
  - intros (r' & [= <-] & Hs' & Hterm & ->).
    rewrite Hs in Hs'. injection Hs' as ->.
    destruct target; try discriminate Hterm; reflexivity.
Qed.

Lemma transition_terminal now id target db r s :
  List.find (has_id id) (rows db "base_result") = Some r →
  status_of r = Some s → terminal s = true →
  transition now id target db = Raise InvalidTransition.
Proof.
  intros Hfind Hs Hterm. unfold transition.
  change (tablename BaseResultORM) with "base_result".
  rewrite Hfind, Hs. destruct s, target; try discriminate Hterm; reflexivity.
Qed.

Lemma rows_update_where t sel f db name :
  rows (update_where t sel f db) name
  = if String.eqb name (tablename t)
    then map (λ r, if sel r then f r else r) (rows db (tablename t))
    else rows db name.
Proof. reflexivity. Qed.

(** An accepted INSERT appends one row to its table and leaves the other
    tables as they are. *)
Lemma insert_rows now t r db r' db' :
  insert now t r db = Ok (r', db') →
  r' = fill now (nextval db (tablename t)) t r
  ∧ rows db' (tablename t) = rows db (tablename t) ++ [r']
  ∧ (∀ name, name ≠ tablename t → rows db' name = rows db name)
  ∧ Forall (λ c, not_null_ok r' c = true) (columns t)
  ∧ Forall (λ c, unique_ok (rows db (tablename t)) r' c = true) (columns t).
Proof.
  intros (-> & -> & Hnn & Huniq & _)%insert_Ok.
  split; [done|]. split; [|split; [|done]].
  - by rewrite rows_inserted, String.eqb_refl.
  - intros name Hne. rewrite rows_inserted.
    by destruct (String.eqb_spec name (tablename t)).
Qed.

(** *** Creation *)

Lemma base_result_names : NoDup (map c_name (columns BaseResultORM)).
Proof. apply (bool_decide_unpack _). by vm_compute. Qed.

(** What [orm.add] leaves in [base_result]: one more row, with an id of
    its own. *)
Lemma add_base_row now cls identity attrs db v db' :
  tablename cls ≠ "base_result" →
  add now cls identity attrs db = Ok (v, db') →
  ∃ base,
    base = fill now (nextval db "base_result") BaseResultORM
             (<["result_type" := Str identity]> attrs)
    ∧ v = get base "id"
    ∧ rows db' "base_result" = rows db "base_result" ++ [base]
    ∧ get base "id" ≠ NULL
    ∧ (∀ r, r ∈ rows db "base_result" → get r "id" ≠ get base "id")
    ∧ (∀ name, name ≠ "base_result" → name ≠ tablename cls →
         rows db' name = rows db name).
Proof.
  intros Hcls. unfold add.
  destruct (insert now BaseResultORM _ db) as [[base db1]|e] eqn:H1;
    [|intros [=]].
  cbn [mbind Result_bind].
  destruct (insert now cls _ db1) as [[row db2]|e] eqn:H2; [|intros [=]].
  cbn [mbind Result_bind]. intros [= <- <-].
  apply insert_rows in H1 as (Hbase & Hrows1 & Hframe1 & Hnn & Huniq).
  apply insert_rows in H2 as (_ & _ & Hframe2 & _).
  change (tablename BaseResultORM) with "base_result" in *.
  exists base. split; [exact Hbase|]. clear Hbase. split; [done|].
  assert (pk (column "id" Integer) ∈ columns BaseResultORM) as Hcol.
  { unfold BaseResultORM. cbn [columns]. rewrite !elem_of_cons. tauto. }
  rewrite Forall_forall in Hnn, Huniq.
  specialize (Hnn _ Hcol). specialize (Huniq _ Hcol). clear Hcol.
  unfold not_null_ok in Hnn. unfold unique_ok in Huniq.
  cbn [c_nullable c_unique c_primary_key c_name pk column orb negb] in Hnn, Huniq.
  apply bool_decide_eq_true in Hnn.
  rewrite bool_decide_false in Huniq by done. cbn [orb] in Huniq.
  split; [|split; [done|split]].
  - rewrite Hframe2 by done. exact Hrows1.
  - intros r Hin. rewrite forallb_forall in Huniq. apply list_elem_of_In in Hin.
    exact (proj1 (bool_decide_eq_true _) (Huniq r Hin)).
  - intros name H1 H2. rewrite Hframe2 by done. by apply Hframe1.
Qed.

End lifecycle_facts.

Section creation_facts.
Import sql models orm store.

Lemma lift_Ok {A} (m : Result Exception A) (a : A) :
  lift m = Ok a → m = Ok a.
Proof.
  destruct m as [a'|e]; simpl; [by intros [= ->]|]. repeat case_match; intros [=].
Qed.

Lemma get_fill_given now next t r c v :
  NoDup (map c_name (columns t)) → c ∈ columns t →
  r !! c_name c = Some v →
  get (fill now next t r) (c_name c) = v.
Proof.
  intros Hnd Hc Hv. rewrite get_fill by done. unfold stored_value. by rewrite Hv.
Qed.

Lemma init_keeps (kwargs extra : Row) (col : string) :
  col ≠ "version" → extra !! col = None →
  (match kwargs !! "version" with
   | Some _ => kwargs
   | None => <["version" := Int 1]> kwargs
   end ∪ extra) !! col = kwargs !! col.
Proof.
  intros Hv Hextra. rewrite lookup_union, Hextra.
  destruct (kwargs !! "version");
    rewrite ?lookup_insert_ne by done; by destruct (kwargs !! col).
Qed.

Lemma OptimizationProcedureORM__init__keeps kwargs col :
  col ∉ ["version"; "procedure"; "program"] →
  OptimizationProcedureORM__init__ kwargs !! col = kwargs !! col.
Proof.
  rewrite !not_elem_of_cons. intros (? & ? & ? & _).
  apply init_keeps; [done|]. by rewrite lookup_singleton_ne.
Qed.

Lemma TorsionDriveProcedureORM__init__keeps kwargs col :
  col ∉ ["version"; "procedure"; "program"] →
  TorsionDriveProcedureORM__init__ kwargs !! col = kwargs !! col.
Proof.
  rewrite !not_elem_of_cons. intros (? & ? & ? & _).
  apply init_keeps; [done|].
  rewrite lookup_insert_ne by done. by rewrite lookup_singleton_ne.
Qed.

(** The attributes [create_base_result] hands to the session. *)
Definition created_attrs (variant : Variant) (inputs : Row) : Row :=
  let inputs := <["status" := Str (status_name incomplete)]> inputs in
  match variant with
  | SingleResult => <["result_type" := Str "result"]> inputs
  | OptimizationProcedure =>
      <["result_type" := Str "optimization_procedure"]>
        (OptimizationProcedureORM__init__ inputs)
  | TorsionDriveProcedure =>
      <["result_type" := Str "torsiondrive_procedure"]>
        (TorsionDriveProcedureORM__init__ inputs)
  end.

Lemma created_attrs_keeps variant inputs col :
  col ∉ ["version"; "procedure"; "program"; "result_type"; "status"] →
  created_attrs variant inputs !! col = inputs !! col.
Proof.
  rewrite !not_elem_of_cons. intros (? & ? & ? & ? & ? & _).
  unfold created_attrs. destruct variant; rewrite lookup_insert_ne by done.
  - by rewrite lookup_insert_ne.
  - rewrite OptimizationProcedureORM__init__keeps
      by (rewrite !not_elem_of_cons; repeat split; try done; apply not_elem_of_nil).
    by rewrite lookup_insert_ne.
  - rewrite TorsionDriveProcedureORM__init__keeps
      by (rewrite !not_elem_of_cons; repeat split; try done; apply not_elem_of_nil).
    by rewrite lookup_insert_ne.
Qed.

Lemma created_attrs_status variant inputs :
  created_attrs variant inputs !! "status" = Some (Str "incomplete").
Proof.
  unfold created_attrs. destruct variant; rewrite lookup_insert_ne by done.
  - by rewrite lookup_insert_eq.
  - rewrite OptimizationProcedureORM__init__keeps
      by (rewrite !not_elem_of_cons; repeat split; try done; apply not_elem_of_nil).
    by rewrite lookup_insert_eq.
  - rewrite TorsionDriveProcedureORM__init__keeps
      by (rewrite !not_elem_of_cons; repeat split; try done; apply not_elem_of_nil).
    by rewrite lookup_insert_eq.
Qed.

(** What a successful [create_base_result] leaves in [base_result]:
    nothing when it finds the single result already stored, and otherwise
    one more row, with an id of its own, in [incomplete] status, whose
    [created_on] is the time of the call unless the inputs give one. *)
Lemma create_base_result_row now variant inputs db v db' :
  create_base_result now variant inputs db = Ok (v, db') →
  (variant = SingleResult ∧ existing_result inputs db = Some v ∧ db' = db)
  ∨ ∃ base,
      v = get base "id"
      ∧ rows db' "base_result" = rows db "base_result" ++ [base]
      ∧ get base "id" ≠ NULL
      ∧ (∀ r, r ∈ rows db "base_result" → get r "id" ≠ get base "id")
      ∧ status_of base = Some incomplete
      ∧ get base "created_on" = default (Time now) (inputs !! "created_on")
      ∧ rows db' "task_queue" = rows db "task_queue"
      ∧ rows db' "service_queue" = rows db "service_queue".
Proof.
  unfold create_base_result.
  assert (∀ cls identity attrs,
            tablename cls ∉ ["base_result"; "task_queue"; "service_queue"] →
            <["result_type" := Str identity]> attrs = created_attrs variant inputs →
            lift (add now cls identity attrs db) = Ok (v, db') →
            ∃ base,
              v = get base "id"
              ∧ rows db' "base_result" = rows db "base_result" ++ [base]
              ∧ get base "id" ≠ NULL
              ∧ (∀ r, r ∈ rows db "base_result" → get r "id" ≠ get base "id")
              ∧ status_of base = Some incomplete
              ∧ get base "created_on" = default (Time now) (inputs !! "created_on")
              ∧ rows db' "task_queue" = rows db "task_queue"
              ∧ rows db' "service_queue" = rows db "service_queue") as Hgen.
  { intros cls identity attrs Hcls Hattrs Hadd.
    rewrite !not_elem_of_cons in Hcls. destruct Hcls as (Hc1 & Hc2 & Hc3 & _).
    apply lift_Ok in Hadd.
    apply add_base_row in Hadd as (base & Hbase & Hv & Hrows & Hid & Hfresh & Hframe);
      [|done].
    rewrite Hattrs in Hbase.
    exists base. split; [done|]. split; [done|]. split; [done|]. split; [done|].
    split; [|split; [|split; apply Hframe; done]].
    - apply (status_of_name base incomplete). rewrite Hbase.
      apply (get_fill_given now _ BaseResultORM _
               (with_default (Scalar (Str "incomplete"))
                  (not_null (column "status" (Enum "RecordStatusEnum"))))).
      + apply base_result_names.
      + unfold BaseResultORM. cbn [columns]. rewrite !elem_of_cons. tauto.
      + apply created_attrs_status.
    - rewrite Hbase.
      rewrite (get_fill now _ BaseResultORM _
                 (with_default utcnow (column "created_on" DateTime)));
        [|apply base_result_names
         |unfold BaseResultORM; cbn [columns]; rewrite !elem_of_cons; tauto].
      unfold stored_value.
      cbn [c_name with_default column autoincrement c_primary_key andb c_default].
      rewrite created_attrs_keeps
        by (rewrite !not_elem_of_cons; repeat split; try done; apply not_elem_of_nil).
      by destruct (inputs !! "created_on"). }
  destruct variant.
  - destruct (existing_result inputs db) as [id|] eqn:Hexisting.
    + intros [= <- <-]. by left.
    + intros Hadd. right. revert Hadd. apply Hgen; [|reflexivity].
      rewrite !not_elem_of_cons; repeat split; try done; apply not_elem_of_nil.
  - intros Hadd. right. revert Hadd. apply Hgen; [|reflexivity].
    rewrite !not_elem_of_cons; repeat split; try done; apply not_elem_of_nil.
  - intros Hadd. right. revert Hadd. apply Hgen; [|reflexivity].
    rewrite !not_elem_of_cons; repeat split; try done; apply not_elem_of_nil.
Qed.

End creation_facts.

Section run_facts.
Import sql models orm store.

Lemma has_id_true (i : Z) (r : Row) : has_id i r = true ↔ get r "id" = Int i.
Proof. unfold has_id. apply bool_decide_eq_true. Qed.

Lemma find_has_id (i : Z) (l : list Row) :
  (∃ r, r ∈ l ∧ get r "id" = Int i)
  ↔ ∃ r, List.find (has_id i) l = Some r ∧ r ∈ l ∧ get r "id" = Int i.
Proof.
  split.
  - intros (r & Hin & Hid).
    destruct (List.find (has_id i) l) as [r'|] eqn:Hfind.
    + apply find_some in Hfind as [Hin' Hid']. exists r'.
      rewrite list_elem_of_In. by rewrite <- has_id_true.
    + apply list_elem_of_In in Hin.
      pose proof (find_none _ _ Hfind r Hin) as Hn.
      apply has_id_true in Hid. congruence.
  - intros (r & _ & Hin & Hid). eauto.
Qed.

(** What a successful call does to [base_result]: nothing, or the
    transition of the rows with one id out of [incomplete], or one new row
    with an id of its own. *)
Lemma call_base_result now c db db' :
  call now c db = Ok db' →
  rows db' "base_result" = rows db "base_result"
  ∨ (∃ id target r,
       c = Transition id target
       ∧ r ∈ rows db "base_result" ∧ get r "id" = Int id
       ∧ status_of r = Some incomplete
       ∧ terminal target = true
       ∧ rows db' "base_result"
         = map (λ r, if has_id id r then resolved now target r else r)
               (rows db "base_result"))
  ∨ (∃ variant inputs base,
       c = CreateBaseResult variant inputs
       ∧ rows db' "base_result" = rows db "base_result" ++ [base]
       ∧ get base "id" ≠ NULL
       ∧ (∀ r, r ∈ rows db "base_result" → get r "id" ≠ get base "id")
       ∧ status_of base = Some incomplete
       ∧ get base "created_on" = default (Time now) (inputs !! "created_on")).
Proof.
  destruct c as [variant inputs|id target|b priority tag spec|h p tag|id succeeded];
    cbn [call].
  - destruct (create_base_result now variant inputs db) as [[v db0]|e] eqn:Hc;
      [|intros [=]].
    cbn [fmap Result_fmap snd]. intros [= <-].
    apply create_base_result_row in Hc
      as [(_ & _ & ->)|(base & _ & Hrows & Hid & Hfresh & Hst & Hcr & _)];
      [by left|].
    right. right. by exists variant, inputs, base.
  - intros (r & Hfind & Hst & Hterm & ->)%transition_Ok.
    right. left. exists id, target, r.
    apply find_some in Hfind as [Hin Hid].
    apply list_elem_of_In in Hin. apply has_id_true in Hid.
    repeat (split; [done|]). reflexivity.
  - destruct (lift (enqueue now b priority tag spec db)) as [[v db0]|e] eqn:Hq;
      [|intros [=]].
    cbn [fmap Result_fmap snd]. intros [= <-]. left.
    apply lift_Ok in Hq. unfold enqueue in Hq.
    destruct (insert now TaskQueueORM _ db) as [[task db1]|e] eqn:Hins;
      [|discriminate Hq].
    cbn [mbind Result_bind] in Hq. injection Hq as _ <-.
    apply insert_rows in Hins as (_ & _ & Hframe & _). by apply Hframe.
  - unfold submit_service. destruct (existsb _ _); [intros [=]|].
    destruct (lift (insert now ServiceQueueORM _ db)) as [[entry db1]|e] eqn:Hins;
      [|intros [=]].
    cbn [mbind Result_bind fmap Result_fmap snd]. intros [= <-]. left.
    apply lift_Ok, insert_rows in Hins as (_ & _ & Hframe & _). by apply Hframe.
  - unfold resolve_service. destruct (List.find _ _) as [entry|]; [|intros [=]].
    destruct (active entry); [|intros [=]]. intros [= <-]. by left.
Qed.

Lemma service_queue_names : NoDup (map c_name (columns ServiceQueueORM)).
Proof. apply (bool_decide_unpack _). by vm_compute. Qed.

(** What a successful call does to [service_queue]: nothing, or one new
    entry when none with the same hash is active, or the resolution of the
    entries with one id. *)
Lemma call_service_queue now c db db' :
  call now c db = Ok db' →
  rows db' "service_queue" = rows db "service_queue"
  ∨ (∃ h p tag entry,
       c = SubmitService h p tag
       ∧ existsb (same_service h) (rows db "service_queue") = false
       ∧ rows db' "service_queue" = rows db "service_queue" ++ [entry]
       ∧ get entry "hash_index" = Str h)
  ∨ (∃ id succeeded,
       c = ResolveService id succeeded
       ∧ rows db' "service_queue"
         = map (λ e, if has_id id e
                     then <["status" := Str (if succeeded then "complete"
                                             else "error")]> e
                     else e)
               (rows db "service_queue")).
Proof.
  destruct c as [variant inputs|id target|b priority tag spec|h p tag|id succeeded];
    cbn [call].
  - destruct (create_base_result now variant inputs db) as [[v db0]|e] eqn:Hc;
      [|intros [=]].
    cbn [fmap Result_fmap snd]. intros [= <-]. left.
    by apply create_base_result_row in Hc
      as [(_ & _ & ->)|(base & _ & _ & _ & _ & _ & _ & _ & ?)].
  - intros (r & _ & _ & _ & ->)%transition_Ok. by left.
  - destruct (lift (enqueue now b priority tag spec db)) as [[v db0]|e] eqn:Hq;
      [|intros [=]].
    cbn [fmap Result_fmap snd]. intros [= <-]. left.
    apply lift_Ok in Hq. unfold enqueue in Hq.
    destruct (insert now TaskQueueORM _ db) as [[task db1]|e] eqn:Hins;
      [|discriminate Hq].
    cbn [mbind Result_bind] in Hq. injection Hq as _ <-.
    apply insert_rows in Hins as (_ & _ & Hframe & _). by apply Hframe.
  - unfold submit_service.
    change (tablename ServiceQueueORM) with "service_queue".
    destruct (existsb _ _) eqn:Hactive; [intros [=]|].
    destruct (lift (insert now ServiceQueueORM _ db)) as [[entry db1]|e] eqn:Hins;
      [|intros [=]].
    cbn [mbind Result_bind fmap Result_fmap snd]. intros [= <-]. right. left.
    apply lift_Ok, insert_rows in Hins as (Hentry & Hrows & _).
    exists h, p, tag, entry. split; [done|]. split; [done|]. split; [done|].
    rewrite Hentry.
    apply (get_fill_given now _ ServiceQueueORM _
             (not_null (column "hash_index" (String_ None)))).
    + apply service_queue_names.
    + unfold ServiceQueueORM. cbn [columns]. rewrite !elem_of_cons. tauto.
    + cbn [c_name not_null column]. by rewrite lookup_insert_eq.
  - unfold resolve_service. destruct (List.find _ _) as [entry|]; [|intros [=]].
    destruct (active entry); [|intros [=]]. intros [= <-]. right. right.
    by exists id, succeeded.
Qed.

(** A property of the database that every successful call keeps holds
    after any run. *)
Lemma run_invariant (P : Database → Prop) (calls : list (Z * Call)) db :
  (∀ now c db db', P db → call now c db = Ok db' → P db') →
  P db → P (run calls db).
Proof.
  intros Hstep. revert db. unfold run.
  induction calls as [|[now c] calls IH]; intros db HP; [done|].
  cbn [foldl]. apply IH. unfold step. cbn [fst snd].
  destruct (call now c db) as [db'|e] eqn:Hcall; [|done].
  by apply (Hstep now c db).
Qed.

End run_facts.

Section lifecycle_claims.
Import sql models orm store.

Lemma status_of_resolved now target r :
  status_of (resolved now target r) = Some target.
Proof. apply status_of_name. by rewrite get_resolved. Qed.

Lemma elem_of_resolved_rows now id target (l : list Row) (r' : Row) :
  r' ∈ map (λ r, if has_id id r then resolved now target r else r) l →
  get r' "id" = Int id →
  ∃ r, r ∈ l ∧ get r "id" = Int id ∧ r' = resolved now target r.
Proof.
  intros (r & -> & Hin)%list_elem_of_fmap Hid.
  destruct (has_id id r) eqn:Hr.
  - exists r. by apply has_id_true in Hr.
  - apply has_id_true in Hid. congruence.
Qed.

(** A base result that has reached a terminal status keeps it, whatever
    is called next. *)
Lemma terminal_status_is_final now c db db' id s :
  terminal s = true →
  call now c db = Ok db' →
  (∃ r, r ∈ rows db "base_result" ∧ get r "id" = Int id)
  ∧ (∀ r, r ∈ rows db "base_result" → get r "id" = Int id → status_of r = Some s) →
  (∃ r, r ∈ rows db' "base_result" ∧ get r "id" = Int id)
  ∧ (∀ r, r ∈ rows db' "base_result" → get r "id" = Int id → status_of r = Some s).
Proof.
  intros Hs Hcall [(r0 & Hin0 & Hid0) Hall].
  destruct (call_base_result now c db db' Hcall)
    as [->|[(id' & target & r & -> & Hin & Hid & Hst & Hterm & ->)
           |(variant & inputs & base & -> & -> & Hbase & Hfresh & _)]].
  - eauto.
  - assert (id' ≠ id) as Hne.
    { intros ->. rewrite (Hall r Hin Hid) in Hst. injection Hst as ->. done. }
    assert (∀ x, get x "id" = Int id → has_id id' x = false) as Hother.
    { intros x Hx. apply not_true_is_false. rewrite has_id_true, Hx. congruence. }
    split.
    + exists r0. split; [|done]. apply list_elem_of_fmap. exists r0.
      by rewrite (Hother r0 Hid0).
    + intros r' (x & -> & Hx)%list_elem_of_fmap Hid'.
      destruct (has_id id' x) eqn:Hx'.
      * apply has_id_true in Hx'.
        apply has_id_true in Hid'. rewrite has_id_resolved in Hid'.
        apply has_id_true in Hid'. congruence.
      * by apply Hall.
  - split.
    + exists r0. split; [|done]. apply elem_of_app. by left.
    + intros r' [Hin'|Hin']%elem_of_app Hid'; [by apply Hall|].
      apply list_elem_of_singleton in Hin' as ->.
      destruct (Hfresh r0 Hin0). congruence.
Qed.

(** No call overwrites the [created_on] of a base result. *)
Lemma created_on_is_kept now c db db' id t :
  call now c db = Ok db' →
  (∃ r, r ∈ rows db "base_result" ∧ get r "id" = Int id)
  ∧ (∀ r, r ∈ rows db "base_result" → get r "id" = Int id →
          get r "created_on" = t) →
  (∃ r, r ∈ rows db' "base_result" ∧ get r "id" = Int id)
  ∧ (∀ r, r ∈ rows db' "base_result" → get r "id" = Int id →
          get r "created_on" = t).
Proof.
  intros Hcall [(r0 & Hin0 & Hid0) Hall].
  destruct (call_base_result now c db db' Hcall)
    as [->|[(id' & target & r & -> & Hin & Hid & Hst & Hterm & ->)
           |(variant & inputs & base & -> & -> & Hbase & Hfresh & _)]].
  - eauto.
  - split.
    + exists (if has_id id' r0 then resolved now target r0 else r0). split.
      * apply list_elem_of_fmap. by exists r0.
      * destruct (has_id id' r0); [|done].
        by rewrite get_resolved.
    + intros r' (x & -> & Hx)%list_elem_of_fmap Hid'.
      destruct (has_id id' x) eqn:Hx'.
      * rewrite get_resolved in Hid'. cbn in Hid'.
        rewrite get_resolved. cbn. by apply Hall.
      * by apply Hall.
  - split.
    + exists r0. split; [|done]. apply elem_of_app. by left.
    + intros r' [Hin'|Hin']%elem_of_app Hid'; [by apply Hall|].
      apply list_elem_of_singleton in Hin' as ->.
      destruct (Hfresh r0 Hin0). congruence.
Qed.


(** A store with one single result, complete. *)
Definition example_complete : Database :=
  set_rows empty_database "base_result"
    [ {[ "id" := Int 1; "result_type" := Str "result";
         "status" := Str "complete"; "created_on" := Time 3;
         "modified_on" := Time 5 ]} ].



(** A store with one single result, incomplete, created at time 3. *)
Definition example_incomplete : Database :=
  set_rows empty_database "base_result"
    [ {[ "id" := Int 1; "result_type" := Str "result";
         "status" := Str "incomplete"; "created_on" := Time 3;
         "modified_on" := Time 3 ]} ].


End lifecycle_claims.

(** ** The service queue *)

Section service_queue_claims.
Import sql models orm store.

Lemma filter_nil_of_existsb {A} (f : A → bool) (l : list A) :
  existsb f l = false → List.filter f l = [].
Proof.
  induction l as [|x l IH]; simpl; [done|].
  intros [-> Hl]%orb_false_iff. by apply IH.
Qed.

Lemma length_filter_map_le {A} (P : A → bool) (f : A → A) (l : list A) :
  (∀ x, P (f x) = true → P x = true) →
  (length (List.filter P (map f l)) ≤ length (List.filter P l))%nat.
Proof.
  intros Hf. induction l as [|x l IH]; simpl; [done|].
  destruct (P (f x)) eqn:Hfx.
  - rewrite (Hf x Hfx). simpl. lia.
  - destruct (P x); simpl; lia.
Qed.

Lemma same_service_resolved h (succeeded : bool) (e : Row) :
  same_service h
    (<["status" := Str (if succeeded then "complete" else "error")]> e) = false.
Proof.
  unfold same_service, active, live, get. rewrite lookup_insert_eq. simpl.
  by destruct succeeded.
Qed.

(** At most one active entry per [hash_index]. *)
Definition deduplicated (db : Database) : Prop :=
  ∀ h, (length (List.filter (same_service h) (rows db "service_queue")) ≤ 1)%nat.

Lemma deduplicated_call now c db db' :
  deduplicated db → call now c db = Ok db' → deduplicated db'.
Proof.
  intros Hdb Hcall h'.
  destruct (call_service_queue now c db db' Hcall)
    as [->|[(h & p & tag & entry & -> & Hnone & -> & Hhash)
           |(id & succeeded & -> & ->)]].
  - apply Hdb.
  - rewrite List.filter_app, length_app. cbn [List.filter].
    destruct (same_service h' entry) eqn:Hentry; [|specialize (Hdb h'); simpl; lia].
    assert (h' = h) as ->.
    { unfold same_service in Hentry. apply andb_true_iff in Hentry as [_ He].
      apply bool_decide_eq_true in He. congruence. }
    rewrite (filter_nil_of_existsb _ _ Hnone). simpl. lia.
  - etransitivity; [|apply (Hdb h')]. apply length_filter_map_le.
    intros e. destruct (has_id id e); [|done].
    by rewrite same_service_resolved.
Qed.


(** A store with one torsion drive under supervision. *)
Definition example_service : Database :=
  set_rows empty_database "service_queue"
    [ {[ "id" := Int 1; "status" := Str "running"; "hash_index" := Str "td-1";
         "procedure_id" := Int 9 ]} ].


End service_queue_claims.
